(** * fix_ts_errors.py: a shallow embedding and its verified properties

    The script rewrites TypeScript sources with regular-expression
    substitutions.  This development embeds

    - Python text as a list of Unicode code points,
    - the fragment of Python's backtracking [re] engine that the script's
      patterns use (literals, character classes, greedy and lazy
      repetition of a class, greedy option, alternation, capture groups and
      back-references) together with [re.sub],
    - the three transformations, [process_file] and [main], the latter two
      over an explicit file-system state with fallible reads and writes,
      first for the runs in which every [print] succeeds and then for a
      standard output that may refuse a line. *)

From Stdlib Require Import String Ascii NArith Bool Arith Lia List.
From Stdlib Require Import Permutation.
Import ListNotations.


(** ** Text *)

(** A Python [str] is a sequence of code points. *)
Definition char := N.
Definition text := list char.

(** The code points of an ASCII literal of the source. *)
Definition cps (s : string) : text :=
  map N_of_ascii (list_ascii_of_string s).

Fixpoint text_eqb (a b : text) : bool :=
  match a, b with
  | [], [] => true
  | x :: a', y :: b' => N.eqb x y && text_eqb a' b'
  | _, _ => false
  end.

(** [strip_prefix p s] is [Some r] when [s = p ++ r]. *)
Fixpoint strip_prefix (p s : text) : option text :=
  match p with
  | [] => Some s
  | x :: p' =>
      match s with
      | [] => None
      | y :: s' => if N.eqb x y then strip_prefix p' s' else None
      end
  end.

Definition starts_with (p s : text) : bool :=
  match strip_prefix p s with Some _ => true | None => false end.

(** Python's [p in s] on strings. *)
Fixpoint is_infix (p s : text) : bool :=
  starts_with p s ||
  match s with
  | [] => false
  | _ :: s' => is_infix p s'
  end.

(** Python's [s.endswith(p)]. *)
Definition ends_with (p s : text) : bool :=
  starts_with (rev p) (rev s).

(** ** Character classes of [re] on [str] patterns *)

(** The Unicode database decides [\w], [\s] and [\d] outside ASCII; it is
    not part of the script and is taken as given. *)
Class Unicode : Type := {
  uni_alnum : char -> bool;
  uni_space : char -> bool;
  uni_digit : char -> bool
}.

(** The text codec of [open(..., encoding='utf-8')] belongs to Python, not
    to the script; both directions can fail. *)
Class Codec : Type := {
  decode : list N -> option text;
  encode : text -> option (list N)
}.

Section Script.

Context {U : Unicode} {K : Codec}.

Definition in_range (lo hi : N) (c : char) : bool := N.leb lo c && N.leb c hi.

Local Open Scope N_scope.

Definition ascii_word (c : char) : bool :=
  in_range 48 57 c || in_range 65 90 c || N.eqb c 95 || in_range 97 122 c.

Definition ascii_space (c : char) : bool :=
  in_range 9 13 c || in_range 28 32 c.

Definition ascii_digit (c : char) : bool := in_range 48 57 c.

(** [\w] *)
Definition is_word (c : char) : bool :=
  if N.ltb c 128 then ascii_word c else uni_alnum c.

(** [\s] *)
Definition is_space (c : char) : bool :=
  if N.ltb c 128 then ascii_space c else uni_space c.

(** [\d] *)
Definition is_digit (c : char) : bool :=
  if N.ltb c 128 then ascii_digit c else uni_digit c.

Local Close Scope N_scope.

(** [[^...]] over a list of excluded characters. *)
Definition none_of (l : text) (c : char) : bool :=
  negb (existsb (N.eqb c) l).

(** [[...]] over a list of characters. *)
Definition one_of (l : text) (c : char) : bool :=
  existsb (N.eqb c) l.

(** ** Regular expressions and the backtracking matcher *)

(** Repetition is over a single character class, which is all the script's
    patterns use; [greedy = false] is the lazy quantifier ([*?]). *)
Inductive regex : Type :=
| Lit (l : text)
| Cls (f : char -> bool)
| Star (greedy : bool) (f : char -> bool)
| Plus (greedy : bool) (f : char -> bool)
| Opt (r : regex)
| Alt (r1 r2 : regex)
| Seq (r1 r2 : regex)
| Group (n : nat) (r : regex)
| Backref (n : nat).

(** Captured groups, most recent binding first. *)
Definition groups := list (nat * text).

Fixpoint group (g : groups) (n : nat) : option text :=
  match g with
  | [] => None
  | (m, t) :: g' => if Nat.eqb n m then Some t else group g' n
  end.

Section Matcher.

Variable R : Type.

(** Greedy [f*]: the longest run first, then shorter ones. *)
Fixpoint star_greedy (f : char -> bool) (s : text)
    (k : text -> option R) : option R :=
  match s with
  | c :: s' =>
      if f c then
        match star_greedy f s' k with
        | Some r => Some r
        | None => k s
        end
      else k s
  | [] => k s
  end.

(** Lazy [f*?]: the shortest run first, then longer ones. *)
Fixpoint star_lazy (f : char -> bool) (s : text)
    (k : text -> option R) : option R :=
  match k s with
  | Some r => Some r
  | None =>
      match s with
      | c :: s' => if f c then star_lazy f s' k else None
      | [] => None
      end
  end.

Definition star (greedy : bool) := if greedy then star_greedy else star_lazy.

(** [rmatch r s g k]: match [r] at the head of [s] with groups [g], then
    continue with [k] on what is left; alternatives are tried in the
    engine's priority order and the first overall success is returned. *)
Fixpoint rmatch (r : regex) (s : text) (g : groups)
    (k : text -> groups -> option R) {struct r} : option R :=
  match r with
  | Lit l =>
      match strip_prefix l s with
      | Some s' => k s' g
      | None => None
      end
  | Cls f =>
      match s with
      | c :: s' => if f c then k s' g else None
      | [] => None
      end
  | Star gr f => star gr f s (fun s' => k s' g)
  | Plus gr f =>
      match s with
      | c :: s' => if f c then star gr f s' (fun s'' => k s'' g) else None
      | [] => None
      end
  | Opt r1 =>
      match rmatch r1 s g k with
      | Some x => Some x
      | None => k s g
      end
  | Alt r1 r2 =>
      match rmatch r1 s g k with
      | Some x => Some x
      | None => rmatch r2 s g k
      end
  | Seq r1 r2 => rmatch r1 s g (fun s' g' => rmatch r2 s' g' k)
  | Group n r1 =>
      rmatch r1 s g
        (fun s' g' => k s' ((n, firstn (length s - length s') s) :: g'))
  | Backref n =>
      match group g n with
      | Some t =>
          match strip_prefix t s with
          | Some s' => k s' g
          | None => None
          end
      | None => None
      end
  end.

End Matcher.

Arguments star_greedy {R} f s k.
Arguments star_lazy {R} f s k.
Arguments star {R} greedy f s k.
Arguments rmatch {R} r s g k.

(** [re_match r s]: the match of [r] at the head of [s], as the number of
    characters matched and the groups. *)
Definition re_match (r : regex) (s : text) : option (nat * groups) :=
  rmatch r s [] (fun s' g => Some (length s - length s', g)).

(** [re.search]: is there a match at some position. *)
Fixpoint re_search (r : regex) (s : text) : bool :=
  match re_match r s with
  | Some _ => true
  | None =>
      match s with
      | [] => false
      | _ :: s' => re_search r s'
      end
  end.

(** [re.sub(r, repl, s)], left to right over non-overlapping matches.
    [skip] counts the characters of the current match still to be passed.
    None of the script's patterns matches the empty string ([nonnull];
    see [admin_nonnull], [response_nonnull] and [callback_nonnull]), so the
    empty-match rule of [re.sub] is never exercised; an empty match is
    modelled as replaced and followed by the next character. *)
Fixpoint sub_from (r : regex) (repl : text -> groups -> text)
    (s : text) (skip : nat) : text :=
  match s with
  | [] =>
      match skip with
      | O => match re_match r [] with
             | Some (_, g) => repl [] g
             | None => []
             end
      | S _ => []
      end
  | c :: s' =>
      match skip with
      | S n => sub_from r repl s' n
      | O =>
          match re_match r s with
          | Some (O, g) => repl [] g ++ c :: sub_from r repl s' 0
          | Some (S n, g) => repl (firstn (S n) s) g ++ sub_from r repl s' n
          | None => c :: sub_from r repl s' 0
          end
      end
  end.

Definition re_sub (r : regex) (repl : text -> groups -> text) (s : text)
  : text := sub_from r repl s 0.

(** Replacement templates: literal text and group references [\n]. *)
Inductive titem : Type :=
| TLit (l : text)
| TGrp (n : nat).

Definition expand (t : list titem) (g : groups) : text :=
  flat_map (fun i => match i with
                     | TLit l => l
                     | TGrp n => match group g n with
                                 | Some x => x
                                 | None => []
                                 end
                     end) t.

Definition template (t : list titem) : text -> groups -> text :=
  fun _ g => expand t g.

(** Sequence of regexes. *)
Fixpoint seq (l : list regex) : regex :=
  match l with
  | [] => Lit []
  | [r] => r
  | r :: l' => Seq r (seq l')
  end.

(** ** The script's patterns *)

Definition quote_chars : text := [39%N; 34%N].

Definition firestore_name : regex :=
  Alt (Lit (cps "firestore")) (Lit (cps "firestoreDb")).

(** The pattern of [fix_check_admin_access]. *)
Definition admin_pattern : regex :=
  seq [ Group 1 (seq [ Lit (cps "async function checkAdminAccess(");
                       Plus true (none_of (cps ")"));
                       Lit (cps "): Promise<boolean> {");
                       Star false (none_of (cps "}"));
                       Lit (cps "const ");
                       firestore_name;
                       Lit (cps " = getFirebaseFirestore();");
                       Star false (none_of (cps "}")) ]);
        Lit (cps "if (!");
        firestore_name;
        Lit (cps ") {");
        Star true is_space;
        Lit (cps "return NextResponse.json(");
        Plus true (none_of (cps "}"));
        Lit (cps "}, { status: ");
        Plus true is_digit;
        Lit (cps " })");
        Opt (Lit (cps ";"));
        Star true is_space;
        Lit (cps "}") ].

(** The pattern and the replacement of the substitution inside
    [replacer]. *)
Definition response_pattern : regex :=
  seq [ Lit (cps "return NextResponse.json({ error: ");
        Group 1 (Cls (one_of quote_chars));
        Group 2 (Plus true (none_of quote_chars));
        Backref 1;
        Lit (cps " }, { status: ");
        Plus true is_digit;
        Lit (cps " })") ].

Definition throw_template : list titem :=
  [ TLit (cps "throw new Error("); TGrp 1; TGrp 2; TGrp 1; TLit (cps ")") ].

Definition replacer (original : text) (_ : groups) : text :=
  re_sub response_pattern (template throw_template) original.

Definition fix_check_admin_access (content : text) : text :=
  re_sub admin_pattern replacer content.

(** The six rules of [fix_implicit_any_params], by method name. *)
Definition callback_methods : list text :=
  [ cps "forEach"; cps "map"; cps "filter"; cps "find"; cps "some";
    cps "every" ].

Definition callback_pattern (m : text) : regex :=
  seq [ Lit (cps "." ++ m ++ cps "((");
        Group 1 (Plus true is_word);
        Lit (cps ") =>") ].

Definition callback_template (m : text) : list titem :=
  [ TLit (cps "." ++ m ++ cps "(("); TGrp 1; TLit (cps ": any) =>") ].

Definition annotate (m : text) (content : text) : text :=
  re_sub (callback_pattern m) (template (callback_template m)) content.

Definition fix_implicit_any_params (content : text) : text :=
  fold_left (fun c m => annotate m c) callback_methods content.

(** ** [fix_firestore_references] *)

(** [s.split(sep)] for a one-character separator. *)
Fixpoint split_on (sep : char) (s : text) : list text :=
  match s with
  | [] => [[]]
  | c :: s' =>
      if N.eqb c sep then [] :: split_on sep s'
      else match split_on sep s' with
           | l :: ls => (c :: l) :: ls
           | [] => [[c]]
           end
  end.

(** [sep.join(ls)] *)
Fixpoint join (sep : text) (ls : list text) : text :=
  match ls with
  | [] => []
  | [l] => l
  | l :: ls' => l ++ sep ++ join sep ls'
  end.

(** [s.lstrip()] *)
Fixpoint lstrip (s : text) : text :=
  match s with
  | c :: s' => if is_space c then lstrip s' else s
  | [] => []
  end.

(** [s.replace(old, new)] for a non-empty [old]. *)
Definition str_replace (old new s : text) : text :=
  re_sub (Lit old) (fun _ _ => new) s.

Definition newline : char := 10%N.
Definition space : char := 32%N.

(** The [while] loop of [fix_firestore_references]: [rest] is
    [lines[i:]]. *)
Fixpoint firestore_loop (lines rest : list text) (i : nat) : list text :=
  match rest with
  | [] => []
  | line :: rest' =>
      if is_infix (cps "collection(firestore,") line
         || is_infix (cps "doc(firestore,") line
         || (is_infix (cps "query(") line
             && Nat.ltb i (length lines - 1)
             && is_infix (cps "collection(firestore") (nth (i + 1) lines []))
      then
        let lo := Nat.max 0 (i - 10) in
        let has_null_check :=
          existsb (fun j =>
                     is_infix (cps "const firestoreDb = getFirebaseFirestore()")
                              (nth j lines []))
                  (List.seq lo (i - lo)) in
        let indent := length line - length (lstrip line) in
        let guard :=
          if has_null_check then []
          else [ repeat space indent
                   ++ cps "const firestoreDb = getFirebaseFirestore();";
                 repeat space indent
                   ++ cps "if (!firestoreDb) throw new Error('Database not configured');";
                 [] ] in
        let line1 := str_replace (cps "collection(firestore,")
                                 (cps "collection(firestoreDb,") line in
        let line2 := str_replace (cps "doc(firestore,")
                                 (cps "doc(firestoreDb,") line1 in
        guard ++ line2 :: firestore_loop lines rest' (S i)
      else line :: firestore_loop lines rest' (S i)
  end.

Definition fix_firestore_references (content : text) : text :=
  let lines := split_on newline content in
  join [newline] (firestore_loop lines lines 0).

(** ** Files *)

(** A path is its sequence of segments; [str(path)] joins them. *)
Definition path := list text.

Definition path_str (p : path) : text := join (cps "/") p.

Fixpoint path_eqb (p q : path) : bool :=
  match p, q with
  | [], [] => true
  | a :: p', b :: q' => text_eqb a b && path_eqb p' q'
  | _, _ => false
  end.

Record file : Type := mk_file {
  data : list N;          (* the bytes on disk *)
  readable : bool;        (* [open(path, 'r')] succeeds *)
  writable : bool         (* [open(path, 'w')] succeeds *)
}.

Definition files := path -> option file.

Definition store (p : path) (f : file) (fs : files) : files :=
  fun q => if path_eqb q p then Some f else fs q.

(** The exceptions a file operation raises; all derive from
    [Exception]. *)
Inductive exn : Type :=
| OpenForReadError
| UnicodeDecodeError
| OpenForWriteError
| UnicodeEncodeError.

(** What the script prints, one entry per [print]. *)
Inductive line : Type :=
| ErrorProcessing (p : path) (e : exn)
| Fixed (p : path)
| Summary (processed modified : nat).

Record world : Type := mk_world {
  disk : files;
  stdout : list line
}.

(** A [print] that succeeds; one that raises is [try_print] below. *)
Definition print (l : line) (w : world) : world :=
  mk_world (disk w) (stdout w ++ [l]).

(** [with open(p, 'r', encoding='utf-8') as f: f.read()] *)
Definition read_text (fs : files) (p : path) : exn + text :=
  match fs p with
  | None => inl OpenForReadError
  | Some f =>
      if readable f then
        match decode (data f) with
        | Some t => inr t
        | None => inl UnicodeDecodeError
        end
      else inl OpenForReadError
  end.

(** [with open(p, 'w', encoding='utf-8') as f: f.write(t)]: opening
    truncates the file before anything is written. *)
Definition write_text (fs : files) (p : path) (t : text)
  : files * option exn :=
  let perms := match fs p with
               | Some f => (readable f, writable f)
               | None => (true, true)
               end in
  if snd perms then
    match encode t with
    | Some b => (store p (mk_file b (fst perms) true) fs, None)
    | None => (store p (mk_file [] (fst perms) true) fs,
               Some UnicodeEncodeError)
    end
  else (fs, Some OpenForWriteError).

(** ** [process_file] and [main] *)

(** The module's functions, as [process_file] finds them by name. *)
Record fixers : Type := mk_fixers {
  check_admin_access : text -> text;
  firestore_references : text -> text;
  implicit_any_params : text -> text
}.

Definition script_fixers : fixers :=
  mk_fixers fix_check_admin_access fix_firestore_references
            fix_implicit_any_params.

Definition process_file_in (m : fixers) (file_path : path) (w : world)
  : world * bool :=
  match read_text (disk w) file_path with
  | inl e => (print (ErrorProcessing file_path e) w, false)
  | inr original_content =>
      let content := check_admin_access m original_content in
      let content := implicit_any_params m content in
      if negb (text_eqb content original_content) then
        match write_text (disk w) file_path content with
        | (fs, None) => (mk_world fs (stdout w), true)
        | (fs, Some e) =>
            (print (ErrorProcessing file_path e) (mk_world fs (stdout w)),
             false)
        end
      else (w, false)
  end.

Definition process_file : path -> world -> world * bool :=
  process_file_in script_fixers.

(** The text [process_file] computes from the text it read. *)
Definition pipeline (content : text) : text :=
  fix_implicit_any_params (fix_check_admin_access content).

(** [base_dir.rglob('*' + ext)] over the entries found below [base_dir]. *)
Definition rglob (ext : text) (tree : list path) : list path :=
  filter (fun p => ends_with ext (last p [])) tree.

(** The filter of [main]: substring tests on [str(f)]. *)
Definition selected (f : path) : bool :=
  is_infix (cps "src") (path_str f)
  && negb (is_infix (cps "node_modules") (path_str f)).

Definition discover (tree : list path) : list path :=
  filter selected (rglob (cps ".ts") tree ++ rglob (cps ".tsx") tree).

(** The [for] loop of [main], threading the world and [changed_count]. *)
Fixpoint main_loop (ts_files : list path) (w : world) (changed_count : nat)
  : world * nat :=
  match ts_files with
  | [] => (w, changed_count)
  | file_path :: rest =>
      match process_file file_path w with
      | (w', true) => main_loop rest (print (Fixed file_path) w')
                                (S changed_count)
      | (w', false) => main_loop rest w' changed_count
      end
  end.

Definition main (tree : list path) (w : world) : world :=
  let ts_files := discover tree in
  let '(w', changed_count) := main_loop ts_files w 0 in
  print (Summary (length ts_files) changed_count) w'.

(** ** Printing that can fail *)

(** [print] writes to [sys.stdout] and raises when the stream refuses the
    text: [UnicodeEncodeError] for a path that the encoding of the stream
    cannot encode, [OSError] for a closed pipe.  No [print] of the script
    is protected: the one at l.104 runs inside the [except] clause, those
    at l.119 and l.121 outside any [try].  The definitions above describe
    the runs in which every [print] succeeds; the ones below take the
    lines that the stream accepts as a parameter. *)
Section Console.

Variable accepts : line -> bool.

(** How a call ends: it returns a value, or the exception of a refused
    [print] leaves it.  [raises w l] keeps the world at that moment and
    the line that was refused. *)
Inductive outcome (A : Type) : Type :=
| returns (a : A)
| raises (w : world) (l : line).

Definition try_print (l : line) (w : world) : outcome world :=
  if accepts l then returns world (print l w) else raises world w l.

(** The [except] clause of [process_file]: its [print] may raise in its
    turn, and then nothing is returned. *)
Definition handler (file_path : path) (e : exn) (w : world)
  : outcome (world * bool) :=
  match try_print (ErrorProcessing file_path e) w with
  | returns _ w' => returns _ (w', false)
  | raises _ w' l => raises _ w' l
  end.

Definition process_file_on (file_path : path) (w : world)
  : outcome (world * bool) :=
  match read_text (disk w) file_path with
  | inl e => handler file_path e w
  | inr original_content =>
      let content := fix_check_admin_access original_content in
      let content := fix_implicit_any_params content in
      if negb (text_eqb content original_content) then
        match write_text (disk w) file_path content with
        | (fs, None) => returns _ (mk_world fs (stdout w), true)
        | (fs, Some e) => handler file_path e (mk_world fs (stdout w))
        end
      else returns _ (w, false)
  end.

(** The world in which the [except] clause runs: the one [process_file]
    was called in when the read has failed, and otherwise the one that the
    failed write has left. *)
Definition at_handler (file_path : path) (w : world) : world :=
  match read_text (disk w) file_path with
  | inl _ => w
  | inr t =>
      mk_world (fst (write_text (disk w) file_path (pipeline t))) (stdout w)
  end.

Fixpoint main_loop_on (ts_files : list path) (w : world) (changed_count : nat)
  : outcome (world * nat) :=
  match ts_files with
  | [] => returns _ (w, changed_count)
  | file_path :: rest =>
      match process_file_on file_path w with
      | returns _ (w', true) =>
          match try_print (Fixed file_path) w' with
          | returns _ w'' => main_loop_on rest w'' (S changed_count)
          | raises _ w'' l => raises _ w'' l
          end
      | returns _ (w', false) => main_loop_on rest w' changed_count
      | raises _ w' l => raises _ w' l
      end
  end.

Definition main_on (tree : list path) (w : world) : outcome world :=
  let ts_files := discover tree in
  match main_loop_on ts_files w 0 with
  | returns _ (w', changed_count) =>
      try_print (Summary (length ts_files) changed_count) w'
  | raises _ w' l => raises _ w' l
  end.

End Console.

Arguments returns {A} a.
Arguments raises {A} w l.

(** A pattern that never matches the empty string. *)
Definition nonnull (r : regex) : Prop :=
  forall s g, re_match r s <> Some (0, g).

(** ** What a match is *)

(** [matches r g m g']: [r] can match exactly the text [m], turning the
    groups [g] into [g'].  The matcher explores these matches in its
    priority order. *)
Inductive matches : regex -> groups -> text -> groups -> Prop :=
| m_lit l g : matches (Lit l) g l g
| m_cls (f : char -> bool) c g : f c = true -> matches (Cls f) g [c] g
| m_star gr (f : char -> bool) m g :
    Forall (fun c => f c = true) m -> matches (Star gr f) g m g
| m_plus gr (f : char -> bool) m g :
    m <> [] -> Forall (fun c => f c = true) m -> matches (Plus gr f) g m g
| m_opt_some r g m g' : matches r g m g' -> matches (Opt r) g m g'
| m_opt_none r g : matches (Opt r) g [] g
| m_alt_l r1 r2 g m g' : matches r1 g m g' -> matches (Alt r1 r2) g m g'
| m_alt_r r1 r2 g m g' : matches r2 g m g' -> matches (Alt r1 r2) g m g'
| m_seq r1 r2 g m1 g1 m2 g2 :
    matches r1 g m1 g1 -> matches r2 g1 m2 g2 ->
    matches (Seq r1 r2) g (m1 ++ m2) g2
| m_group n r g m g' :
    matches r g m g' -> matches (Group n r) g m ((n, m) :: g')
| m_backref n g t : group g n = Some t -> matches (Backref n) g t g.

(** ** The shapes the access-check rewrite reads and writes *)

Definition response_head : text := cps "return NextResponse.json({ error: ".
Definition response_mid : text := cps " }, { status: ".
Definition response_tail : text := cps " })".

(** [return NextResponse.json({ error: q msg q }, { status: d })] *)
Definition response_stmt (q : char) (msg d : text) : text :=
  response_head ++ q :: msg ++ q :: response_mid ++ d ++ response_tail.

(** [throw new Error(q msg q)] *)
Definition throw_stmt (q : char) (msg : text) : text :=
  cps "throw new Error(" ++ q :: msg ++ q :: cps ")".

(** [rewrites t u]: [u] is [t] with some disjoint response statements
    replaced, each by the throw statement with the same quote and the same
    message. *)
Inductive rewrites : text -> text -> Prop :=
| rw_nil : rewrites [] []
| rw_keep c t u : rewrites t u -> rewrites (c :: t) (c :: u)
| rw_stmt q msg d t u :
    In q quote_chars ->
    Forall (fun c => is_digit c = true) d ->
    rewrites t u ->
    rewrites (response_stmt q msg d ++ t) (throw_stmt q msg ++ u).

(** The text of a match of [admin_pattern], by its variable parts. *)
Definition admin_match (ps a v1 b v2 w1 body d semi w2 : text) : text :=
  cps "async function checkAdminAccess(" ++ ps ++
  cps "): Promise<boolean> {" ++ a ++
  cps "const " ++ v1 ++ cps " = getFirebaseFirestore();" ++ b ++
  cps "if (!" ++ v2 ++ cps ") {" ++ w1 ++
  cps "return NextResponse.json(" ++ body ++
  cps "}, { status: " ++ d ++ cps " })" ++ semi ++ w2 ++ cps "}".

Definition firestore_names : list text := [cps "firestore"; cps "firestoreDb"].

Definition all (f : char -> bool) (s : text) : Prop :=
  Forall (fun c => f c = true) s.

Record admin_parts (ps a v1 b v2 w1 body d semi w2 : text) : Prop := {
  ps_nonempty : ps <> [];
  ps_no_paren : all (none_of (cps ")")) ps;
  a_no_brace : all (none_of (cps "}")) a;
  v1_name : In v1 firestore_names;
  b_no_brace : all (none_of (cps "}")) b;
  v2_name : In v2 firestore_names;
  w1_space : all is_space w1;
  body_nonempty : body <> [];
  body_no_brace : all (none_of (cps "}")) body;
  d_nonempty : d <> [];
  d_digits : all is_digit d;
  semi_opt : semi = [] \/ semi = cps ";";
  w2_space : all is_space w2
}.

(** ** The shapes the callback rules read and write *)

(** [.m((w) =>] *)
Definition callback_text (m w : text) : text :=
  cps "." ++ m ++ cps "((" ++ w ++ cps ") =>".

(** [.m((w: any) =>] *)
Definition annotated_text (m w : text) : text :=
  cps "." ++ m ++ cps "((" ++ w ++ cps ": any) =>".

Definition dot : char := 46%N.

Definition dotfree (s : text) : Prop := ~ In dot s.

(** All the suffixes of a text, longest first. *)
Fixpoint tails (s : text) : list text :=
  s :: match s with
       | [] => []
       | _ :: s' => tails s'
       end.

(** No match of the rule for method [m] at any position. *)
Definition unmatched (m : text) (s : text) : Prop :=
  re_search (callback_pattern m) s = false.

(** The loop of [fix_implicit_any_params] over a list of methods. *)
Definition annotate_all (ms : list text) (content : text) : text :=
  fold_left (fun c m => annotate m c) ms content.

(** ** The access-check block of the specification's example *)

Definition forbidden_body : text := cps "{ error: 'Forbidden' ".
Definition forbidden_status : text := cps "403".
Definition semicolon : text := cps ";".

(** Everything of an access-check block before the forbidden-response
    statement. *)
Definition block_prefix (ps a v1 b v2 w1 : text) : text :=
  cps "async function checkAdminAccess(" ++ ps ++
  cps "): Promise<boolean> {" ++ a ++
  cps "const " ++ v1 ++ cps " = getFirebaseFirestore();" ++ b ++
  cps "if (!" ++ v2 ++ cps ") {" ++ w1.

(** The block with the statement
    [return NextResponse.json({ error: 'Forbidden' }, { status: 403 });] *)
Definition access_block (ps a v1 b v2 w1 w2 : text) : text :=
  block_prefix ps a v1 b v2 w1 ++
  cps "return NextResponse.json({ error: 'Forbidden' }, { status: 403 });" ++
  w2 ++ cps "}".

(** The block with the statement [throw new Error('Forbidden');] *)
Definition fixed_block (ps a v1 b v2 w1 w2 : text) : text :=
  block_prefix ps a v1 b v2 w1 ++
  cps "throw new Error('Forbidden');" ++
  w2 ++ cps "}".

(** The part of a match of [admin_pattern] between the opening brace of the
    function and the first closing brace. *)
Definition block_inner (a v1 b v2 w1 body : text) : text :=
  a ++ cps "const " ++ v1 ++ cps " = getFirebaseFirestore();" ++ b ++
  cps "if (!" ++ v2 ++ cps ") {" ++ w1 ++
  cps "return NextResponse.json(" ++ body.

(** ** Access-check blocks in general *)

(** The object [{ error: q msg q ] of a response statement, up to its
    closing brace. *)
Definition error_body (q : char) (msg : text) : text :=
  cps "{ error: " ++ q :: msg ++ q :: cps " ".

(** A block whose forbidden-response statement has quote [q], message
    [msg], status [d] and the optional semicolon [semi]. *)
Definition response_block (ps a v1 b v2 w1 : text) (q : char)
    (msg d semi w2 : text) : text :=
  block_prefix ps a v1 b v2 w1 ++ response_stmt q msg d ++ semi ++ w2
  ++ cps "}".

(** The same block with the statement [throw new Error(q msg q)]. *)
Definition thrown_block (ps a v1 b v2 w1 : text) (q : char)
    (msg semi w2 : text) : text :=
  block_prefix ps a v1 b v2 w1 ++ throw_stmt q msg ++ semi ++ w2 ++ cps "}".

(** The part of [block_prefix] after the parameter list: it holds no
    closing brace. *)
Definition block_body (a v1 b v2 w1 : text) : text :=
  cps "): Promise<boolean> {" ++ a ++
  cps "const " ++ v1 ++ cps " = getFirebaseFirestore();" ++ b ++
  cps "if (!" ++ v2 ++ cps ") {" ++ w1.

(** ** Counting what [main] prints *)

Definition is_fixed (l : line) : bool :=
  match l with
  | Fixed _ => true
  | _ => false
  end.

(** The number of [Fixed: ...] lines among printed lines. *)
Definition count_fixed (ls : list line) : nat := length (filter is_fixed ls).

(** ** The texts [fix_firestore_references] looks for and writes *)

Definition doc_call : text := cps "doc(firestore,".


End Script.

Arguments star_greedy {R} f s k.
Arguments star_lazy {R} f s k.
Arguments star {R} greedy f s k.
Arguments rmatch {R} r s g k.
Arguments returns {A} a.
Arguments raises {A} w l.
Arguments response_head : simpl never.
Arguments response_mid : simpl never.
Arguments response_tail : simpl never.
Arguments response_stmt : simpl never.
Arguments throw_stmt : simpl never.
Arguments admin_match : simpl never.
Arguments callback_text : simpl never.
Arguments annotated_text : simpl never.

(** ** Concrete inputs *)

(** A Unicode table with nothing outside ASCII and a codec that accepts
    ASCII only: enough to run the script on ASCII files. *)
Definition ascii_only : Unicode :=
  {| uni_alnum := fun _ => false;
     uni_space := fun _ => false;
     uni_digit := fun _ => false |}.

Definition ascii_bytes (b : list N) : option (list N) :=
  if forallb (fun c => N.ltb c 128) b then Some b else None.

(** Reading in text mode with the default [newline=None]: CR LF and a
    lone CR both arrive as LF. *)
Fixpoint universal_newlines (b : list N) : text :=
  match b with
  | [] => []
  | c :: r =>
      if N.eqb c 13 then
        match r with
        | c' :: r' =>
            if N.eqb c' 10 then 10%N :: universal_newlines r'
            else 10%N :: universal_newlines r
        | [] => [10%N]
        end
      else c :: universal_newlines r
  end.

(** UTF-8 restricted to ASCII, on a system whose line separator is LF:
    reading translates the newlines, writing writes the text as it is. *)
Definition ascii_codec : Codec :=
  {| decode := fun b => option_map universal_newlines (ascii_bytes b);
     encode := ascii_bytes |}.

Definition callback_ts : text := cps "items.forEach((x) => x.run());".
Definition annotated_ts : text := cps "items.forEach((x: any) => x.run());".

Definition list_ts : path := [cps "app"; cps "src"; cps "list.ts"].
Definition next_ts : path := [cps "app"; cps "src"; cps "next.ts"].

Definition no_files : files := fun _ => None.

(** [list.ts] holds a callback to annotate and may be written. *)
Definition writable_world : world :=
  mk_world (store list_ts (mk_file callback_ts true true) no_files) [].

(** The same file, read-only. *)
Definition read_only_world : world :=
  mk_world (store list_ts (mk_file callback_ts true false) no_files) [].

(** [list.ts] is not valid text (byte 255). *)
Definition undecodable_world : world :=
  mk_world (store list_ts (mk_file [255%N] true true) no_files) [].

(** A standard output with a strict UTF-8 encoder: it refuses a line
    whose path holds a surrogate code point, which is how Python keeps a
    byte of a file name that is not valid UTF-8. *)
Definition is_surrogate (c : char) : bool :=
  N.leb 55296 c && N.leb c 57343.

Definition encodable (t : text) : bool :=
  forallb (fun c => negb (is_surrogate c)) t.

Definition utf8_stdout (l : line) : bool :=
  match l with
  | ErrorProcessing p _ => forallb encodable p
  | Fixed p => forallb encodable p
  | Summary _ _ => true
  end.

(** A file whose name holds the byte 0xE9, read by Python as U+DCE9. *)
Definition odd_ts : path :=
  [cps "app"; cps "src"; cps "caf" ++ 56553%N :: cps ".ts"].

(** [odd_ts] is not valid text, [next.ts] holds a callback to annotate. *)
Definition odd_world : world :=
  mk_world (store odd_ts (mk_file [255%N] true true)
                  (store next_ts (mk_file callback_ts true true) no_files))
           [].

(** The same with the invalid text in [list.ts]. *)
Definition two_files_world : world :=
  mk_world (store list_ts (mk_file [255%N] true true)
                  (store next_ts (mk_file callback_ts true true) no_files))
           [].

(** A file outside every [src] directory whose name contains "src". *)
Definition srcmap_ts : path := [cps "app"; cps "lib"; cps "srcmap.ts"].

Definition has_segment (seg : text) (p : path) : bool :=
  existsb (text_eqb seg) p.

(** The access-check helper of the specification's example, its parts
    being [userId: string], line breaks and indentation. *)
Definition example_block : text :=
  access_block (cps "userId: string") (newline :: cps "  ") (cps "firestore")
               (newline :: cps "  ") (cps "firestore")
               (newline :: cps "    ") (newline :: cps "  ").

Definition example_fixed : text :=
  fixed_block (cps "userId: string") (newline :: cps "  ") (cps "firestore")
              (newline :: cps "  ") (cps "firestore")
              (newline :: cps "    ") (newline :: cps "  ").

(** The same helper with a default value in its parameter list and a
    logging call in its body, and so with quoted strings before the
    response statement. *)
Definition logging_params : text := cps "userId: string, role = 'admin'".

Definition logging_body : text :=
  newline :: cps "  console.log('checking admin');" ++ newline :: cps "  ".

Definition logging_block : text :=
  access_block logging_params logging_body (cps "firestore")
               (newline :: cps "  ") (cps "firestore")
               (newline :: cps "    ") (newline :: cps "  ").

Definition logging_fixed : text :=
  fixed_block logging_params logging_body (cps "firestore")
              (newline :: cps "  ") (cps "firestore")
              (newline :: cps "    ") (newline :: cps "  ").

(** A block, on one line, whose parameter list holds a response statement
    of its own, and the same block with nothing but the forbidden-response
    statement replaced. *)
Definition response_params : text :=
  cps "deny = return NextResponse.json({ error: 'no' }, { status: 401 }".

Definition response_params_block : text :=
  access_block response_params (cps " ") (cps "firestore") (cps " ")
               (cps "firestore") (cps " ") (cps " ").

Definition response_params_fixed : text :=
  fixed_block response_params (cps " ") (cps "firestore") (cps " ")
              (cps "firestore") (cps " ") (cps " ").

(** A block whose message is double-quoted, with status 401 and without
    the semicolon. *)
Definition denied_block : text :=
  response_block logging_params logging_body (cps "firestoreDb")
                 (newline :: cps "  ") (cps "firestoreDb")
                 (newline :: cps "    ") 34%N (cps "Admin access required")
                 (cps "401") [] (newline :: cps "  ").

(** A block whose double-quoted message holds an apostrophe, and one whose
    message is empty. *)
Definition dont_block : text :=
  response_block (cps "userId: string") (newline :: cps "  ")
                 (cps "firestore") (newline :: cps "  ") (cps "firestore")
                 (newline :: cps "    ") 34%N (cps "Don't")
                 (cps "403") (cps ";") (newline :: cps "  ").

Definition empty_message_block : text :=
  response_block (cps "userId: string") (newline :: cps "  ")
                 (cps "firestore") (newline :: cps "  ") (cps "firestore")
                 (newline :: cps "    ") 39%N []
                 (cps "403") (cps ";") (newline :: cps "  ").

Definition example_pre : text := cps "// admin" ++ [newline].
Definition example_post : text := newline :: cps "  return true;" ++ newline :: cps "}".

(** A block whose parameter list holds a response statement whose message
    is the beginning of another one. *)
Definition nested_response_ts : text :=
  cps "async function checkAdminAccess(return NextResponse.json({ error: 'return NextResponse.json({ error: ' }, { status: 1 }): Promise<boolean> { const firestore = getFirebaseFirestore(); if (!firestore) { return NextResponse.json(x' }, { status: 403 }); }".

(** A file below a [node_modules] directory, and a small tree. *)
Definition vendored_ts : path :=
  [cps "app"; cps "node_modules"; cps "pkg"; cps "src"; cps "index.ts"].

Definition example_tree : list path := [list_ts; vendored_ts; next_ts].


(** The world after [process_file] has rewritten [list.ts] of
    [writable_world]. *)
Definition rewritten_world : world :=
  mk_world (store list_ts (mk_file annotated_ts true true)
                  (disk writable_world)) [].

(** * Properties *)

Section Properties.

Context {U : Unicode} {K : Codec}.

(** ** Text equality and prefixes *)

Lemma text_eqb_eq (a b : text) : text_eqb a b = true <-> a = b.
Proof.
  revert b; induction a as [|x a IH]; intros [|y b]; simpl;
    try (split; [discriminate | congruence]); try tauto.
  rewrite andb_true_iff, N.eqb_eq, IH.
  split; [intros [-> ->]; reflexivity | intros H; inversion H; auto].
Qed.

Lemma text_eqb_refl (a : text) : text_eqb a a = true.
Proof. apply text_eqb_eq; reflexivity. Qed.

Lemma text_eqb_neq (a b : text) : text_eqb a b = false <-> a <> b.
Proof.
  rewrite <- text_eqb_eq. destruct (text_eqb a b); split; congruence.
Qed.

Lemma strip_prefix_spec (p s r : text) :
  strip_prefix p s = Some r <-> s = p ++ r.
Proof.
  revert s; induction p as [|x p IH]; intros s; simpl.
  - split; congruence.
  - destruct s as [|y s]; [split; discriminate|].
    destruct (N.eqb_spec x y) as [->|Hne].
    + rewrite IH. split; [intros ->; reflexivity | congruence].
    + split; [discriminate | congruence].
Qed.

Lemma strip_prefix_app (p r : text) : strip_prefix p (p ++ r) = Some r.
Proof. apply strip_prefix_spec; reflexivity. Qed.

(** ** [re.sub] without a match *)

Lemma re_search_false_cons (r : regex) (c : char) (s : text) :
  re_search r (c :: s) = false ->
  re_match r (c :: s) = None /\ re_search r s = false.
Proof.
  simpl. destruct (re_match r (c :: s)); [discriminate | auto].
Qed.

Lemma re_sub_no_match (r : regex) (repl : text -> groups -> text) (s : text) :
  re_search r s = false -> re_sub r repl s = s.
Proof.
  unfold re_sub. induction s as [|c s IH]; intros H.
  - simpl in *. destruct (re_match r []); [discriminate | reflexivity].
  - apply re_search_false_cons in H as [Hm Hs].
    cbn [sub_from]. rewrite Hm, (IH Hs). reflexivity.
Qed.

(** ** The file layer *)

Lemma process_file_unfold (m : fixers) (p : path) (w : world) (t : text) :
  read_text (disk w) p = inr t ->
  process_file_in m p w =
    let c := implicit_any_params m (check_admin_access m t) in
    if text_eqb c t then (w, false)
    else match write_text (disk w) p c with
         | (fs, None) => (mk_world fs (stdout w), true)
         | (fs, Some e) =>
             (print (ErrorProcessing p e) (mk_world fs (stdout w)), false)
         end.
Proof.
  intros H. unfold process_file_in. rewrite H. cbv zeta.
  destruct (text_eqb _ t); reflexivity.
Qed.

Lemma process_file_read_error (p : path) (w : world) (e : exn) :
  read_text (disk w) p = inl e ->
  process_file p w = (print (ErrorProcessing p e) w, false).
Proof.
  intros H. unfold process_file, process_file_in. rewrite H. reflexivity.
Qed.

Lemma path_eqb_refl (p : path) : path_eqb p p = true.
Proof.
  induction p as [|a p IH]; simpl; [reflexivity|].
  rewrite text_eqb_refl, IH. reflexivity.
Qed.

Lemma pipeline_process_file (p : path) (w : world) (t : text) :
  read_text (disk w) p = inr t ->
  process_file p w =
    if text_eqb (pipeline t) t then (w, false)
    else match write_text (disk w) p (pipeline t) with
         | (fs, None) => (mk_world fs (stdout w), true)
         | (fs, Some e) =>
             (print (ErrorProcessing p e) (mk_world fs (stdout w)), false)
         end.
Proof. intros H. unfold process_file. rewrite (process_file_unfold _ _ _ _ H). reflexivity. Qed.

(** A write that fails while encoding leaves the file truncated. *)
Lemma write_failure_truncates (p : path) (w : world) (t : text) (f : file) :
  read_text (disk w) p = inr t ->
  pipeline t <> t ->
  disk w p = Some f -> writable f = true ->
  encode (pipeline t) = None ->
  process_file p w =
    (print (ErrorProcessing p UnicodeEncodeError)
           (mk_world (store p (mk_file [] (readable f) true) (disk w))
                     (stdout w)), false).
Proof.
  intros Hr Hne Hf Hw He. rewrite (pipeline_process_file _ _ _ Hr).
  apply text_eqb_neq in Hne. rewrite Hne.
  unfold write_text. rewrite Hf, He. simpl. rewrite Hw. reflexivity.
Qed.

(** C1 (amended): after a successful read, equal texts leave the world
    untouched and report [False]; different texts overwrite the file with
    the encoded pipeline output and report [True], provided the file can be
    opened for writing and the text encodes. *)
Theorem process_file_writes_iff_changed
    (p : path) (w : world) (t : text) (f : file)
    (Hread : read_text (disk w) p = inr t) (Hfile : disk w p = Some f) :
  (pipeline t = t -> process_file p w = (w, false)) /\
  (pipeline t <> t ->
     forall b, writable f = true -> encode (pipeline t) = Some b ->
     process_file p w =
       (mk_world (store p (mk_file b (readable f) true) (disk w)) (stdout w),
        true)).
Proof.
  rewrite (pipeline_process_file _ _ _ Hread). split.
  - intros E. rewrite E, text_eqb_refl. reflexivity.
  - intros Hne b Hw He. apply text_eqb_neq in Hne. rewrite Hne.
    unfold write_text. rewrite Hfile, He. simpl. rewrite Hw. reflexivity.
Qed.

Lemma process_file_on_read_error (accepts : line -> bool)
    (p : path) (w : world) (e : exn) :
  read_text (disk w) p = inl e ->
  process_file_on accepts p w = handler accepts p e w.
Proof. intros H. unfold process_file_on. rewrite H. reflexivity. Qed.

Lemma process_file_on_unfold (accepts : line -> bool)
    (p : path) (w : world) (t : text) :
  read_text (disk w) p = inr t ->
  process_file_on accepts p w =
    if text_eqb (pipeline t) t then returns (w, false)
    else match write_text (disk w) p (pipeline t) with
         | (fs, None) => returns (mk_world fs (stdout w), true)
         | (fs, Some e) => handler accepts p e (mk_world fs (stdout w))
         end.
Proof.
  intros H. unfold process_file_on. rewrite H. cbv zeta.
  fold (pipeline t). destruct (text_eqb (pipeline t) t); reflexivity.
Qed.

Lemma at_handler_stdout (p : path) (w : world) :
  stdout (at_handler p w) = stdout w.
Proof.
  unfold at_handler. destruct (read_text (disk w) p); reflexivity.
Qed.

(** C2 (amended): an exception raised while reading or writing a file is
    caught and its message printed.  When the standard output accepts the
    message, [process_file] returns [False] with the message added to what
    was printed before, and the loop of [main] goes on with the remaining
    files and an unchanged count.  When the standard output refuses the
    message, the [print] in the handler raises in its turn: [process_file]
    returns nothing, the loop stops, and [main] ends there, without
    processing a later file or printing the summary. *)
Theorem process_file_catches (accepts : line -> bool)
    (p : path) (w : world) (e : exn) (rest : list path) (n : nat)
    (Hraise : read_text (disk w) p = inl e \/
              exists t, read_text (disk w) p = inr t /\ pipeline t <> t /\
                        snd (write_text (disk w) p (pipeline t)) = Some e) :
  process_file_on accepts p w
  = (if accepts (ErrorProcessing p e)
     then returns (mk_world (disk (at_handler p w))
                            (stdout w ++ [ErrorProcessing p e]), false)
     else raises (at_handler p w) (ErrorProcessing p e)) /\
  main_loop_on accepts (p :: rest) w n
  = (if accepts (ErrorProcessing p e)
     then main_loop_on accepts rest
            (mk_world (disk (at_handler p w))
                      (stdout w ++ [ErrorProcessing p e])) n
     else raises (at_handler p w) (ErrorProcessing p e)) /\
  (forall tree : list path,
     discover tree = p :: rest -> accepts (ErrorProcessing p e) = false ->
     main_on accepts tree w = raises (at_handler p w) (ErrorProcessing p e)).
Proof.
  assert (E : process_file_on accepts p w
              = handler accepts p e (at_handler p w)).
  { unfold at_handler. destruct Hraise as [Hr | (t & Hr & Hne & Hw)].
    - rewrite (process_file_on_read_error _ _ _ _ Hr), Hr. reflexivity.
    - apply text_eqb_neq in Hne.
      rewrite (process_file_on_unfold _ _ _ _ Hr), Hr, Hne.
      destruct (write_text (disk w) p (pipeline t)) as [fs o].
      simpl in Hw. subst o. reflexivity. }
  assert (H : handler accepts p e (at_handler p w)
              = (if accepts (ErrorProcessing p e)
                 then returns (mk_world (disk (at_handler p w))
                                 (stdout w ++ [ErrorProcessing p e]), false)
                 else raises (at_handler p w) (ErrorProcessing p e))).
  { unfold handler, try_print, print. rewrite at_handler_stdout.
    destruct (accepts (ErrorProcessing p e)); reflexivity. }
  assert (L : forall k, main_loop_on accepts (p :: rest) w k
              = (if accepts (ErrorProcessing p e)
                 then main_loop_on accepts rest
                        (mk_world (disk (at_handler p w))
                                  (stdout w ++ [ErrorProcessing p e])) k
                 else raises (at_handler p w) (ErrorProcessing p e))).
  { intros k. cbn [main_loop_on]. rewrite E, H.
    destruct (accepts (ErrorProcessing p e)); reflexivity. }
  split; [rewrite E; exact H|]. split; [apply L|].
  intros tree Hd Ha. unfold main_on. rewrite Hd, L, Ha. reflexivity.
Qed.

(** C3: [process_file] applies [fix_check_admin_access] and then
    [fix_implicit_any_params] to the text it read; whatever function is
    bound to [fix_firestore_references] has no influence on the result. *)
Theorem pipeline_is_composition
    (other : text -> text) (p : path) (w : world) :
  process_file_in
    (mk_fixers fix_check_admin_access other fix_implicit_any_params) p w
  = process_file p w /\
  process_file p w =
    match read_text (disk w) p with
    | inl e => (print (ErrorProcessing p e) w, false)
    | inr t =>
        let c := fix_implicit_any_params (fix_check_admin_access t) in
        if text_eqb c t then (w, false)
        else match write_text (disk w) p c with
             | (fs, None) => (mk_world fs (stdout w), true)
             | (fs, Some e) =>
                 (print (ErrorProcessing p e) (mk_world fs (stdout w)),
                  false)
             end
    end.
Proof.
  split.
  - reflexivity.
  - destruct (read_text (disk w) p) as [e|t] eqn:Hr.
    + apply process_file_read_error; assumption.
    + apply pipeline_process_file; assumption.
Qed.

(** C10: when reading the file raises, [process_file] returns [False] and
    every file on disk is what it was: nothing was opened for writing. *)
Theorem read_failure_leaves_disk
    (p : path) (w : world) (e : exn)
    (Hread : read_text (disk w) p = inl e) :
  disk (fst (process_file p w)) = disk w /\
  snd (process_file p w) = false.
Proof.
  rewrite (process_file_read_error _ _ _ Hread). split; reflexivity.
Qed.

(** C7: when neither the access-check pattern nor any of the six callback
    patterns matches anywhere in the text, the pipeline returns the text
    itself. *)
Theorem pipeline_no_match_identity
    (t : text)
    (Hadmin : re_search admin_pattern t = false)
    (Hcb : Forall (fun m => re_search (callback_pattern m) t = false)
                  callback_methods) :
  pipeline t = t.
Proof.
  unfold pipeline, fix_check_admin_access.
  rewrite (re_sub_no_match _ _ _ Hadmin).
  unfold fix_implicit_any_params.
  induction Hcb as [|m ms Hm _ IH]; simpl; [reflexivity|].
  unfold annotate at 2. rewrite (re_sub_no_match _ _ _ Hm). exact IH.
Qed.

(** ** The matcher against the declarative relation *)

Create HintDb regex.
#[local] Hint Constructors matches : regex.

Lemma firstn_consumed (m s' : text) :
  firstn (length (m ++ s') - length s') (m ++ s') = m.
Proof.
  rewrite length_app, Nat.add_sub.
  rewrite firstn_app, Nat.sub_diag, firstn_all. simpl. apply app_nil_r.
Qed.

Section MatcherTheory.

Variable R : Type.

Lemma star_sound gr (f : char -> bool) (s : text) (k : text -> option R) x :
  star gr f s k = Some x ->
  exists m s', s = m ++ s' /\ Forall (fun c => f c = true) m /\ k s' = Some x.
Proof.
  destruct gr; simpl; induction s as [|c s IH]; simpl; intros H.
  - exists [], []; auto.
  - destruct (f c) eqn:Fc.
    + destruct (star_greedy f s k) eqn:E.
      * inversion H; subst. destruct (IH eq_refl) as (m & s' & -> & Hm & Hk).
        exists (c :: m), s'; auto.
      * exists [], (c :: s); auto.
    + exists [], (c :: s); auto.
  - destruct (k []) eqn:E; [|discriminate]. exists [], []; split; auto.
    split; auto. congruence.
  - destruct (k (c :: s)) eqn:E.
    + exists [], (c :: s); split; auto. split; auto. congruence.
    + destruct (f c) eqn:Fc; [|discriminate].
      destruct (IH H) as (m & s' & -> & Hm & Hk).
      exists (c :: m), s'; auto.
Qed.

Lemma star_complete gr (f : char -> bool) (m s' : text) (k : text -> option R) :
  Forall (fun c => f c = true) m -> k s' <> None ->
  star gr f (m ++ s') k <> None.
Proof.
  intros Hm Hk. destruct gr; simpl; induction Hm as [|c m Fc _ IH]; simpl.
  - destruct s' as [|c s']; simpl; auto. destruct (f c); auto.
    destruct (star_greedy f s' k); [discriminate | auto].
  - rewrite Fc. destruct (star_greedy f (m ++ s') k); [discriminate | tauto].
  - destruct s' as [|c s']; simpl; destruct (k _); try discriminate; tauto.
  - destruct (k (c :: m ++ s')); [discriminate|]. rewrite Fc. exact IH.
Qed.

Lemma rmatch_sound (r : regex) :
  forall (s : text) (g : groups) (k : text -> groups -> option R) x,
  rmatch r s g k = Some x ->
  exists m s' g', s = m ++ s' /\ matches r g m g' /\ k s' g' = Some x.
Proof.
  induction r as [l|f|gr f|gr f|r IH|r1 IH1 r2 IH2|r1 IH1 r2 IH2|n r IH|n];
    intros s g k x H; simpl in H.
  - destruct (strip_prefix l s) as [s'|] eqn:E; [|discriminate].
    apply strip_prefix_spec in E. exists l, s', g. eauto 6 with regex.
  - destruct s as [|c s]; [discriminate|]. destruct (f c) eqn:Fc; [|discriminate].
    exists [c], s, g. eauto 6 with regex.
  - apply star_sound in H as (m & s' & -> & Hm & Hk).
    exists m, s', g. eauto 6 with regex.
  - destruct s as [|c s]; [discriminate|]. destruct (f c) eqn:Fc; [|discriminate].
    apply star_sound in H as (m & s' & -> & Hm & Hk).
    exists (c :: m), s', g. split; [reflexivity|]. split; [|exact Hk].
    constructor; [discriminate | auto].
  - destruct (rmatch r s g k) eqn:E.
    + inversion H; subst. destruct (IH _ _ _ _ E) as (m & s' & g' & ? & ? & ?).
      exists m, s', g'. eauto 6 with regex.
    + exists [], s, g. eauto 6 with regex.
  - destruct (rmatch r1 s g k) eqn:E.
    + inversion H; subst. destruct (IH1 _ _ _ _ E) as (m & s' & g' & ? & ? & ?).
      exists m, s', g'. eauto 6 with regex.
    + destruct (IH2 _ _ _ _ H) as (m & s' & g' & ? & ? & ?).
      exists m, s', g'. eauto 6 with regex.
  - destruct (IH1 _ _ _ _ H) as (m1 & s1 & g1 & -> & M1 & H2).
    destruct (IH2 _ _ _ _ H2) as (m2 & s2 & g2 & -> & M2 & Hk).
    exists (m1 ++ m2), s2, g2. rewrite <- app_assoc. eauto 6 with regex.
  - destruct (IH _ _ _ _ H) as (m & s' & g' & -> & M & Hk).
    rewrite firstn_consumed in Hk.
    exists m, s', ((n, m) :: g'). eauto 6 with regex.
  - destruct (group g n) as [t|] eqn:G; [|discriminate].
    destruct (strip_prefix t s) as [s'|] eqn:E; [|discriminate].
    apply strip_prefix_spec in E. exists t, s', g. eauto 6 with regex.
Qed.

Lemma rmatch_complete (r : regex) (g : groups) (m : text) (g' : groups) :
  matches r g m g' ->
  forall (s' : text) (k : text -> groups -> option R),
  k s' g' <> None -> rmatch r (m ++ s') g k <> None.
Proof.
  induction 1 as [l g|f c g Fc|gr f m g Hm|gr f m g Hne Hm|r g m g' _ IH|r g
                 |r1 r2 g m g' _ IH|r1 r2 g m g' _ IH
                 |r1 r2 g m1 g1 m2 g2 _ IH1 _ IH2|n r g m g' _ IH|n g t G];
    intros s' k Hk; simpl.
  - rewrite strip_prefix_app. exact Hk.
  - rewrite Fc. exact Hk.
  - apply star_complete; assumption.
  - destruct m as [|c m]; [congruence|]. inversion Hm; subst. simpl.
    rewrite H1. apply star_complete; assumption.
  - specialize (IH s' k Hk). destruct (rmatch r (m ++ s') g k); congruence.
  - destruct (rmatch r s' g k); [discriminate | exact Hk].
  - specialize (IH s' k Hk). destruct (rmatch r1 (m ++ s') g k); congruence.
  - destruct (rmatch r1 (m ++ s') g k); [discriminate | auto].
  - rewrite <- app_assoc. apply IH1. apply IH2. exact Hk.
  - apply IH. rewrite firstn_consumed. exact Hk.
  - rewrite G, strip_prefix_app. exact Hk.
Qed.

End MatcherTheory.

Lemma re_match_sound (r : regex) (s : text) (n : nat) (g : groups) :
  re_match r s = Some (n, g) ->
  exists m s', s = m ++ s' /\ n = length m /\ matches r [] m g.
Proof.
  intros H. apply rmatch_sound in H as (m & s' & g' & -> & M & E).
  inversion E; subst. exists m, s'. rewrite length_app, Nat.add_sub. auto.
Qed.

Lemma re_match_complete (r : regex) (m s' : text) (g : groups) :
  matches r [] m g -> re_match r (m ++ s') <> None.
Proof. intros M. apply (rmatch_complete _ _ _ _ _ M). discriminate. Qed.

(** ** Equations and an induction principle for [re.sub] *)

Lemma matches_nonnull (r : regex) :
  (forall m g, matches r [] m g -> m <> []) -> nonnull r.
Proof.
  intros H s g E. apply re_match_sound in E as (m & s' & _ & Hn & M).
  apply (H _ _ M). destruct m; [reflexivity | discriminate].
Qed.

Section Sub.

Variable r : regex.
Variable repl : text -> groups -> text.
Hypothesis r_nonnull : nonnull r.

Lemma sub_from_skip (s : text) (k : nat) :
  k <= length s -> sub_from r repl s k = sub_from r repl (skipn k s) 0.
Proof.
  revert k; induction s as [|c s IH]; intros [|k] Hk; simpl in *;
    try reflexivity; try lia.
  apply IH. lia.
Qed.

Lemma re_sub_nil : re_sub r repl [] = [].
Proof.
  unfold re_sub; simpl. destruct (re_match r []) as [[n g]|] eqn:E; auto.
  exfalso. pose proof E as E'.
  apply re_match_sound in E' as (m & s' & Hs & -> & _).
  symmetry in Hs. apply app_eq_nil in Hs as [-> _]. exact (r_nonnull _ _ E).
Qed.

Lemma re_sub_cons (c : char) (s : text) :
  re_match r (c :: s) = None ->
  re_sub r repl (c :: s) = c :: re_sub r repl s.
Proof. unfold re_sub. intros H. cbn [sub_from]. rewrite H. reflexivity. Qed.

Lemma re_sub_match (m s' : text) (g : groups) :
  re_match r (m ++ s') = Some (length m, g) ->
  re_sub r repl (m ++ s') = repl m g ++ re_sub r repl s'.
Proof.
  intros H. destruct m as [|c m].
  - exfalso. exact (r_nonnull _ _ H).
  - unfold re_sub. simpl app in *. cbn [sub_from]. rewrite H.
    cbn [length]. rewrite sub_from_skip by (rewrite length_app; lia).
    rewrite skipn_app, Nat.sub_diag, skipn_all. simpl skipn. simpl app.
    rewrite firstn_app, Nat.sub_diag, firstn_all. simpl firstn.
    rewrite app_nil_r. reflexivity.
Qed.

(** Every run of [re.sub] is a sequence of copied characters and replaced
    matches. *)
Lemma re_sub_ind (P : text -> text -> Prop) :
  P [] [] ->
  (forall c s, re_match r (c :: s) = None ->
               P s (re_sub r repl s) -> P (c :: s) (c :: re_sub r repl s)) ->
  (forall m s' g, m <> [] -> re_match r (m ++ s') = Some (length m, g) ->
                  matches r [] m g ->
                  P s' (re_sub r repl s') ->
                  P (m ++ s') (repl m g ++ re_sub r repl s')) ->
  forall s, P s (re_sub r repl s).
Proof.
  intros Hnil Hcons Hmatch s.
  induction s as [s IH] using (induction_ltof1 _ (@length char)).
  unfold ltof in IH. destruct s as [|c s].
  - rewrite re_sub_nil. exact Hnil.
  - destruct (re_match r (c :: s)) as [[n g]|] eqn:E.
    + pose proof E as E'.
      apply re_match_sound in E' as (m & s' & Hs & -> & M).
      rewrite Hs in *. rewrite (re_sub_match _ _ _ E).
      assert (m <> []) by (intros ->; exact (r_nonnull _ _ E)).
      apply Hmatch; auto. apply IH.
      rewrite length_app. destruct m; [congruence | simpl; lia].
    + rewrite re_sub_cons by exact E. apply Hcons; auto.
Qed.

End Sub.

(** ** Inversion of matches of the script's patterns *)

Ltac inv_match H := inversion H; subst; clear H.

Ltac inv_matches :=
  repeat match goal with
  | H : matches (Seq _ _) _ _ _ |- _ => inv_match H
  | H : matches (Lit _) _ _ _ |- _ => inv_match H
  | H : matches (Cls _) _ _ _ |- _ => inv_match H
  | H : matches (Star _ _) _ _ _ |- _ => inv_match H
  | H : matches (Plus _ _) _ _ _ |- _ => inv_match H
  | H : matches (Group _ _) _ _ _ |- _ => inv_match H
  | H : matches (Backref _) _ _ _ |- _ => inv_match H
  | H : matches (Opt _) _ _ _ |- _ => inv_match H
  | H : matches (Alt _ _) _ _ _ |- _ => inv_match H
  end.

Lemma one_of_In (l : text) (c : char) : one_of l c = true <-> In c l.
Proof.
  unfold one_of. rewrite existsb_exists. split.
  - intros (x & Hx & E). apply N.eqb_eq in E. subst. exact Hx.
  - intros H. exists c. split; [exact H | apply N.eqb_refl].
Qed.

Lemma none_of_In (l : text) (c : char) : none_of l c = true <-> ~ In c l.
Proof.
  unfold none_of. rewrite negb_true_iff, <- not_true_iff_false.
  apply not_iff_compat. apply one_of_In.
Qed.

Lemma response_match_inv (m : text) (g : groups) :
  matches response_pattern [] m g ->
  exists q msg d,
    In q quote_chars /\ msg <> [] /\
    Forall (fun c => none_of quote_chars c = true) msg /\
    d <> [] /\ Forall (fun c => is_digit c = true) d /\
    m = response_stmt q msg d /\
    g = [(2, msg); (1, [q])].
Proof.
  unfold response_pattern. cbn [seq]. intros H. inv_matches.
  cbn [group Nat.eqb] in *.
  match goal with H : Some _ = Some _ |- _ => inv_match H end.
  match goal with H : one_of _ ?c = true |- _ =>
    apply one_of_In in H; exists c end.
  match goal with H : Forall (fun c => none_of _ c = true) ?x |- _ =>
    exists x end.
  match goal with H : Forall (fun c => is_digit c = true) ?x |- _ =>
    exists x end.
  repeat split; auto.
Qed.

Lemma admin_match_inv (m : text) (g : groups) :
  matches admin_pattern [] m g ->
  exists ps a v1 b v2 w1 body d semi w2,
    admin_parts ps a v1 b v2 w1 body d semi w2 /\
    m = admin_match ps a v1 b v2 w1 body d semi w2.
Proof.
  unfold admin_pattern, firestore_name. cbn [seq]. intros H. inv_matches;
  match goal with
  | |- exists ps a v1 b v2 w1 body d semi w2, _ /\
         ((_ ++ ?ps' ++ _ ++ ?a' ++ _ ++ ?v1' ++ _ ++ ?b') ++ _ ++ ?v2' ++ _
          ++ ?w1' ++ _ ++ ?body' ++ _ ++ ?d' ++ _ ++ ?semi' ++ ?w2' ++ _) = _ =>
      exists ps', a', v1', b', v2', w1', body', d', semi', w2'
  end;
  (split; [constructor; unfold all, firestore_names; simpl; auto
          | unfold admin_match; rewrite <- !app_assoc; reflexivity]).
Qed.

Lemma response_nonnull : nonnull response_pattern.
Proof.
  apply matches_nonnull. intros m g M.
  apply response_match_inv in M as (q & msg & d & _ & _ & _ & _ & _ & -> & _).
  discriminate.
Qed.

Lemma admin_nonnull : nonnull admin_pattern.
Proof.
  apply matches_nonnull. intros m g M.
  apply admin_match_inv in M
    as (ps & a & v1 & b & v2 & w1 & body & d & semi & w2 & _ & ->).
  discriminate.
Qed.

(** ** Every change of the access-check rewrite keeps the message *)

Lemma rewrites_refl (t : text) : rewrites t t.
Proof. induction t; constructor; assumption. Qed.

Lemma rewrites_app (a a' b b' : text) :
  rewrites a a' -> rewrites b b' -> rewrites (a ++ b) (a' ++ b').
Proof.
  intros Ha Hb. induction Ha as [|c t u _ IH|q msg d t u Hq Hd _ IH].
  - exact Hb.
  - simpl. constructor. exact IH.
  - rewrite <- !app_assoc. constructor; assumption.
Qed.

Lemma expand_throw (q : char) (msg : text) :
  expand throw_template [(2, msg); (1, [q])] = throw_stmt q msg.
Proof.
  unfold expand, throw_template, throw_stmt. cbn [flat_map group Nat.eqb].
  rewrite app_nil_r. reflexivity.
Qed.

Lemma replacer_rewrites (original : text) (g : groups) :
  rewrites original (replacer original g).
Proof.
  unfold replacer.
  apply (re_sub_ind response_pattern (template throw_template)
                    response_nonnull rewrites).
  - constructor.
  - intros c s _ H. constructor. exact H.
  - intros m s' g' _ _ M H.
    apply response_match_inv in M
      as (q & msg & d & Hq & _ & _ & _ & Hd & -> & ->).
    unfold template. rewrite expand_throw. constructor; assumption.
Qed.

Lemma check_admin_access_rewrites (content : text) :
  rewrites content (fix_check_admin_access content).
Proof.
  unfold fix_check_admin_access.
  apply (re_sub_ind admin_pattern replacer admin_nonnull rewrites).
  - constructor.
  - intros c s _ H. constructor. exact H.
  - intros m s' g _ _ _ H. apply rewrites_app; [apply replacer_rewrites | exact H].
Qed.

(** ** Runs of a character class *)

Lemma run_unique (f : char -> bool) (a a' : text) (c c' : char) (r r' : text) :
  all f a -> all f a' -> f c = false -> f c' = false ->
  a ++ c :: r = a' ++ c' :: r' -> a = a' /\ c = c' /\ r = r'.
Proof.
  intros Ha. revert a'. induction Ha as [|x a Hx _ IH]; intros a' Ha' Hc Hc' E.
  - destruct Ha' as [|y a' Hy _]; simpl in E.
    + inversion E; auto.
    + inversion E; subst. congruence.
  - destruct Ha' as [|y a' Hy Ha']; simpl in E.
    + inversion E; subst. congruence.
    + inversion E; subst. destruct (IH a' Ha' Hc Hc' H1) as (-> & -> & ->). auto.
Qed.

Lemma all_app (f : char -> bool) (a b : text) :
  all f (a ++ b) <-> all f a /\ all f b.
Proof. apply Forall_app. Qed.

(** Two texts that start the same text: one is a prefix of the other. *)
Lemma app_eq_app_cases (x r a s : text) :
  x ++ r = a ++ s ->
  (exists l, a = x ++ l /\ r = l ++ s) \/
  (exists c l, x = a ++ c :: l /\ s = c :: l ++ r).
Proof.
  revert a. induction x as [|c x IH]; intros a E; simpl in *.
  - left. exists a. auto.
  - destruct a as [|d a]; simpl in *.
    + right. exists c, x. auto.
    + inversion E; subst. destruct (IH a H1) as [(l & -> & ->)|(e & l & -> & ->)].
      * left. exists l. auto.
      * right. exists e, l. auto.
Qed.

(** ** Matches of a callback rule *)

Lemma word_not_paren : is_word 41%N = false.
Proof. reflexivity. Qed.

Lemma word_not_colon : is_word 58%N = false.
Proof. reflexivity. Qed.

Lemma word_not_dot : is_word dot = false.
Proof. reflexivity. Qed.

Lemma callback_match_inv (m0 m : text) (g : groups) :
  matches (callback_pattern m0) [] m g ->
  exists w, w <> [] /\ all is_word w /\ m = callback_text m0 w /\ g = [(1, w)].
Proof.
  unfold callback_pattern. cbn [seq]. intros H. inv_matches.
  match goal with H : all _ ?w |- _ => exists w end
  || match goal with H : Forall _ ?w |- _ => exists w end.
  repeat split; auto.
  unfold callback_text. simpl. rewrite <- !app_assoc. reflexivity.
Qed.

Lemma callback_matches (m0 w : text) :
  w <> [] -> all is_word w ->
  matches (callback_pattern m0) [] (callback_text m0 w) [(1, w)].
Proof.
  intros Hne Hw. unfold callback_pattern, callback_text. cbn [seq].
  replace (cps "." ++ m0 ++ cps "((" ++ w ++ cps ") =>")
    with ((cps "." ++ m0 ++ cps "((") ++ w ++ cps ") =>")
    by (rewrite <- !app_assoc; reflexivity).
  eapply m_seq; [constructor|].
  eapply m_seq; [|constructor].
  constructor. constructor; assumption.
Qed.

Lemma callback_nonnull (m0 : text) : nonnull (callback_pattern m0).
Proof.
  apply matches_nonnull. intros m g M.
  apply callback_match_inv in M as (w & _ & _ & -> & _). discriminate.
Qed.

Lemma callback_text_inj (m0 w w' r r' : text) :
  all is_word w -> all is_word w' ->
  callback_text m0 w ++ r = callback_text m0 w' ++ r' -> w = w' /\ r = r'.
Proof.
  intros Hw Hw' E. unfold callback_text in E. rewrite <- !app_assoc in E.
  apply app_inv_head in E. apply app_inv_head in E. apply app_inv_head in E.
  simpl in E.
  destruct (run_unique is_word w w' _ _ _ _ Hw Hw' word_not_paren word_not_paren E)
    as (-> & _ & H).
  split; [reflexivity|]. inversion H. reflexivity.
Qed.

(** The match of a callback rule is determined by the text. *)
Lemma callback_match_iff (m0 s : text) (n : nat) (g : groups) :
  re_match (callback_pattern m0) s = Some (n, g) <->
  exists w r, w <> [] /\ all is_word w /\ s = callback_text m0 w ++ r /\
              n = length (callback_text m0 w) /\ g = [(1, w)].
Proof.
  split.
  - intros H. apply re_match_sound in H as (m & s' & -> & -> & M).
    apply callback_match_inv in M as (w & Hne & Hw & -> & ->).
    exists w, s'. auto.
  - intros (w & r & Hne & Hw & -> & -> & ->).
    pose proof (re_match_complete _ _ r _ (callback_matches m0 w Hne Hw)) as C.
    destruct (re_match (callback_pattern m0) (callback_text m0 w ++ r))
      as [[n g]|] eqn:E; [|congruence].
    apply re_match_sound in E as (m & s' & Hs & -> & M).
    apply callback_match_inv in M as (w' & Hne' & Hw' & -> & ->).
    apply callback_text_inj in Hs as [-> _]; auto.
Qed.

Lemma callback_match_none (m0 s : text) :
  re_match (callback_pattern m0) s = None <->
  ~ exists w r, w <> [] /\ all is_word w /\ s = callback_text m0 w ++ r.
Proof.
  split.
  - intros H (w & r & Hne & Hw & Hs).
    assert (X : re_match (callback_pattern m0) s
                = Some (length (callback_text m0 w), [(1, w)]))
      by (apply callback_match_iff; exists w, r; auto).
    congruence.
  - intros H. destruct (re_match (callback_pattern m0) s) as [[n g]|] eqn:E; auto.
    exfalso. apply H. apply callback_match_iff in E
      as (w & r & Hne & Hw & Hs & _). exists w, r. auto.
Qed.

(** ** One callback rule over a text *)

Lemma word_dotfree (w : text) : all is_word w -> dotfree w.
Proof.
  intros Hw Hin. unfold all in Hw. rewrite Forall_forall in Hw.
  apply Hw in Hin. rewrite word_not_dot in Hin. discriminate.
Qed.

Lemma dotfree_app (a b : text) : dotfree (a ++ b) <-> dotfree a /\ dotfree b.
Proof. unfold dotfree. rewrite in_app_iff. tauto. Qed.

Lemma callback_text_cons (m0 w : text) :
  callback_text m0 w = dot :: (m0 ++ cps "((" ++ w ++ cps ") =>").
Proof. reflexivity. Qed.

Lemma annotated_text_cons (m0 w : text) :
  annotated_text m0 w = dot :: (m0 ++ cps "((" ++ w ++ cps ": any) =>").
Proof. reflexivity. Qed.

Lemma callback_tail_dotfree (m0 w : text) :
  dotfree m0 -> all is_word w -> dotfree (m0 ++ cps "((" ++ w ++ cps ") =>").
Proof.
  intros Hm Hw. rewrite !dotfree_app. repeat split; auto using word_dotfree;
    unfold dotfree; simpl; intuition discriminate.
Qed.

Lemma annotated_tail_dotfree (m0 w : text) :
  dotfree m0 -> all is_word w ->
  dotfree (m0 ++ cps "((" ++ w ++ cps ": any) =>").
Proof.
  intros Hm Hw. rewrite !dotfree_app. repeat split; auto using word_dotfree;
    unfold dotfree; simpl; intuition discriminate.
Qed.

(** A match starts with a dot. *)
Lemma nodot_nomatch (m0 : text) (c : char) (s : text) :
  c <> dot -> re_match (callback_pattern m0) (c :: s) = None.
Proof.
  intros Hc. apply callback_match_none. intros (w & r & _ & _ & E).
  rewrite callback_text_cons in E. inversion E. contradiction.
Qed.

Lemma annotate_nil (m0 : text) : annotate m0 [] = [].
Proof. apply re_sub_nil, callback_nonnull. Qed.

Lemma annotate_cons (m0 : text) (c : char) (s : text) :
  re_match (callback_pattern m0) (c :: s) = None ->
  annotate m0 (c :: s) = c :: annotate m0 s.
Proof. apply re_sub_cons. Qed.

Lemma annotate_match (m0 w r : text) :
  w <> [] -> all is_word w ->
  annotate m0 (callback_text m0 w ++ r) = annotated_text m0 w ++ annotate m0 r.
Proof.
  intros Hne Hw. unfold annotate.
  rewrite (re_sub_match _ _ (callback_nonnull m0) _ _ [(1, w)]).
  - unfold template, expand, callback_template, annotated_text.
    cbn [flat_map group Nat.eqb]. rewrite app_nil_r, <- !app_assoc.
    reflexivity.
  - apply callback_match_iff. exists w, r. auto.
Qed.

Lemma annotate_dotfree (m0 x : text) :
  dotfree x -> annotate m0 x = x.
Proof.
  induction x as [|c x IH]; intros Hx.
  - apply annotate_nil.
  - rewrite annotate_cons.
    + rewrite IH; [reflexivity|]. intros H. apply Hx. right. exact H.
    + apply nodot_nomatch. intros ->. apply Hx. left. reflexivity.
Qed.

(** A match never runs over a later dot, so a rule works on both sides of
    a dot independently. *)
Lemma match_before_dot (x a r y : text) :
  dotfree x -> a <> [] -> (dot :: x) ++ r = a ++ dot :: y ->
  exists l, a = (dot :: x) ++ l /\ r = l ++ dot :: y.
Proof.
  intros Hx Ha E. apply app_eq_app_cases in E as [H|(c & l & E1 & E2)]; auto.
  exfalso. destruct a as [|d a]; [congruence|].
  simpl in E1. injection E1 as _ Hx'. injection E2 as <- _.
  apply Hx. rewrite Hx'. apply in_or_app. right. left. reflexivity.
Qed.

Lemma annotate_split (m0 a y : text) :
  dotfree m0 ->
  annotate m0 (a ++ dot :: y) = annotate m0 a ++ annotate m0 (dot :: y).
Proof.
  intros Hm.
  induction a as [a IH] using (induction_ltof1 _ (@length char)).
  unfold ltof in IH. destruct a as [|c a].
  - rewrite annotate_nil. reflexivity.
  - destruct (re_match (callback_pattern m0) ((c :: a) ++ dot :: y))
      as [[n g]|] eqn:E.
    + apply callback_match_iff in E as (w & r & Hne & Hw & Hs & _ & _).
      rewrite callback_text_cons in Hs. symmetry in Hs.
      apply match_before_dot in Hs as (l & Ha & ->);
        [|apply callback_tail_dotfree; assumption | discriminate].
      rewrite Ha, <- callback_text_cons, <- !app_assoc.
      rewrite !annotate_match by assumption.
      rewrite IH, app_assoc; [reflexivity|].
      rewrite Ha. rewrite length_app. simpl. lia.
    + assert (E' : re_match (callback_pattern m0) (c :: a) = None).
      { apply callback_match_none. intros (w & r & Hne & Hw & Hs).
        apply callback_match_none in E. apply E.
        exists w, (r ++ dot :: y). rewrite Hs, <- app_assoc. auto. }
      simpl app in *. rewrite !annotate_cons by assumption.
      rewrite IH by (simpl; lia). reflexivity.
Qed.

(** ** The six rules together *)

Ltac each_method H :=
  unfold callback_methods in H; simpl in H;
  repeat (destruct H as [<-|H]); [..|contradiction].

Lemma method_dotfree (m : text) : In m callback_methods -> dotfree m.
Proof.
  intros H. each_method H; unfold dotfree; simpl; intuition discriminate.
Qed.

Lemma word_not_quote (c : char) : In c quote_chars -> is_word c = false.
Proof. intros [<-|[<-|[]]]; reflexivity. Qed.

(** The rule of one method does not match at the head of another method's
    callback. *)
Lemma other_method_head (k m0 w r : text) :
  In k callback_methods -> In m0 callback_methods -> k <> m0 ->
  re_match (callback_pattern k) (callback_text m0 w ++ r) = None.
Proof.
  intros Hk Hm Hne. apply callback_match_none. intros (w' & r' & _ & _ & E).
  unfold callback_text in E.
  each_method Hk; each_method Hm; try congruence; simpl in E; congruence.
Qed.

(** No rule matches at the head of an annotated callback. *)
Lemma annotated_head (k m0 w r : text) :
  In k callback_methods -> In m0 callback_methods -> all is_word w ->
  re_match (callback_pattern k) (annotated_text m0 w ++ r) = None.
Proof.
  intros Hk Hm Hw. apply callback_match_none. intros (w' & r' & _ & Hw' & E).
  unfold callback_text, annotated_text in E.
  assert (X : w ++ cps ": any) =>" ++ r = w' ++ cps ") =>" ++ r' -> False).
  { simpl. intros X.
    apply (run_unique is_word) in X as (_ & X & _);
      auto using word_not_colon, word_not_paren. discriminate. }
  each_method Hk; each_method Hm; simpl in E; try congruence;
    rewrite <- !app_assoc in E; simpl in E;
    repeat (injection E as E); auto.
Qed.

Lemma annotate_dotfree_app (m0 x r : text) :
  dotfree x -> annotate m0 (x ++ r) = x ++ annotate m0 r.
Proof.
  induction x as [|c x IH]; intros Hx; [reflexivity|]. simpl.
  rewrite annotate_cons.
  - rewrite IH; [reflexivity|]. intros H. apply Hx. right. exact H.
  - apply nodot_nomatch. intros ->. apply Hx. left. reflexivity.
Qed.

(** A dot-led segment at whose head the rule does not match is copied. *)
Lemma annotate_inert (k x r : text) :
  dotfree x ->
  re_match (callback_pattern k) ((dot :: x) ++ r) = None ->
  annotate k ((dot :: x) ++ r) = (dot :: x) ++ annotate k r.
Proof.
  intros Hx H. simpl in *. rewrite annotate_cons by exact H.
  rewrite annotate_dotfree_app by exact Hx. reflexivity.
Qed.

Lemma annotate_callback_other (k m0 w a b : text) :
  In k callback_methods -> In m0 callback_methods -> k <> m0 ->
  all is_word w ->
  annotate k (a ++ callback_text m0 w ++ b)
  = annotate k a ++ callback_text m0 w ++ annotate k b.
Proof.
  intros Hk Hm Hne Hw. rewrite callback_text_cons. simpl.
  rewrite annotate_split by (apply method_dotfree; exact Hk).
  f_equal. change (annotate k ((dot :: (m0 ++ cps "((" ++ w ++ cps ") =>")) ++ b)
                   = (dot :: (m0 ++ cps "((" ++ w ++ cps ") =>")) ++ annotate k b).
  apply annotate_inert.
  - apply callback_tail_dotfree; auto using method_dotfree.
  - rewrite <- callback_text_cons. apply other_method_head; assumption.
Qed.

Lemma annotate_callback_same (m0 w a b : text) :
  In m0 callback_methods -> w <> [] -> all is_word w ->
  annotate m0 (a ++ callback_text m0 w ++ b)
  = annotate m0 a ++ annotated_text m0 w ++ annotate m0 b.
Proof.
  intros Hm Hne Hw. rewrite callback_text_cons at 1. simpl.
  rewrite annotate_split by (apply method_dotfree; exact Hm).
  f_equal.
  change (annotate m0 ((dot :: (m0 ++ cps "((" ++ w ++ cps ") =>")) ++ b)
          = annotated_text m0 w ++ annotate m0 b).
  rewrite <- callback_text_cons. apply annotate_match; assumption.
Qed.

Lemma annotate_annotated (k m0 w a b : text) :
  In k callback_methods -> In m0 callback_methods -> all is_word w ->
  annotate k (a ++ annotated_text m0 w ++ b)
  = annotate k a ++ annotated_text m0 w ++ annotate k b.
Proof.
  intros Hk Hm Hw. rewrite annotated_text_cons. simpl.
  rewrite annotate_split by (apply method_dotfree; exact Hk).
  f_equal.
  change (annotate k ((dot :: (m0 ++ cps "((" ++ w ++ cps ": any) =>")) ++ b)
          = (dot :: (m0 ++ cps "((" ++ w ++ cps ": any) =>")) ++ annotate k b).
  apply annotate_inert.
  - apply annotated_tail_dotfree; auto using method_dotfree.
  - rewrite <- annotated_text_cons. apply annotated_head; assumption.
Qed.

Lemma expand_callback (m0 w m : text) :
  template (callback_template m0) m [(1, w)] = annotated_text m0 w.
Proof.
  unfold template, expand, callback_template, annotated_text.
  cbn [flat_map group Nat.eqb]. rewrite app_nil_r, <- !app_assoc. reflexivity.
Qed.

Lemma unmatched_cons (k : text) (c : char) (s : text) :
  unmatched k (c :: s) <->
  re_match (callback_pattern k) (c :: s) = None /\ unmatched k s.
Proof.
  unfold unmatched. simpl.
  destruct (re_match (callback_pattern k) (c :: s)).
  - split; [discriminate | intros [H _]; discriminate].
  - split; [auto | intros [_ H]; exact H].
Qed.

Lemma unmatched_nil (k : text) : unmatched k [].
Proof.
  reflexivity.
Qed.

Lemma unmatched_app_r (k a b : text) : unmatched k (a ++ b) -> unmatched k b.
Proof.
  induction a as [|c a IH]; simpl; auto.
  intros H. apply unmatched_cons in H as [_ H]. auto.
Qed.

Lemma unmatched_dotfree_app (k x r : text) :
  dotfree x -> unmatched k r -> unmatched k (x ++ r).
Proof.
  induction x as [|c x IH]; intros Hx Hr; simpl; auto.
  apply unmatched_cons. split.
  - apply nodot_nomatch. intros ->. apply Hx. left. reflexivity.
  - apply IH; auto. intros H. apply Hx. right. exact H.
Qed.

(** What a rule's output shows before its first dot was there already. *)
Lemma annotate_dotfree_prefix (j s : text) :
  forall x r, dotfree x -> annotate j s = x ++ r -> exists r', s = x ++ r'.
Proof.
  unfold annotate.
  apply (re_sub_ind (callback_pattern j) (template (callback_template j))
                    (callback_nonnull j)
                    (fun s u => forall x r, dotfree x -> u = x ++ r ->
                                            exists r', s = x ++ r')).
  - intros x r _ E. symmetry in E. apply app_eq_nil in E as [-> _].
    exists []. reflexivity.
  - intros c s0 _ IH [|d x] r Hx E.
    + exists (c :: s0). reflexivity.
    + simpl in E. injection E as <- E.
      destruct (IH x r) as (r' & ->); auto.
      * intros H. apply Hx. right. exact H.
      * exists r'. reflexivity.
  - intros m s' g _ _ M _ [|d x] r Hx E.
    + exists (m ++ s'). reflexivity.
    + exfalso. apply callback_match_inv in M as (w & _ & _ & -> & ->).
      rewrite expand_callback, annotated_text_cons in E. simpl in E.
      injection E as <- _. apply Hx. left. reflexivity.
Qed.

(** A rule does not create matches: of itself nowhere, of another rule only
    where that rule matched before. *)
Lemma annotate_unmatched (j k s : text) :
  In j callback_methods -> In k callback_methods ->
  j = k \/ unmatched k s -> unmatched k (annotate j s).
Proof.
  intros Hj Hk. unfold annotate.
  apply (re_sub_ind (callback_pattern j) (template (callback_template j))
                    (callback_nonnull j)
                    (fun s u => j = k \/ unmatched k s -> unmatched k u)).
  - intros _. apply unmatched_nil.
  - intros c s0 Hc IH H. apply unmatched_cons. split.
    + destruct (re_match (callback_pattern k) (c :: re_sub _ _ s0))
        as [[n g]|] eqn:E; auto. exfalso.
      apply callback_match_iff in E as (w & r & Hne & Hw & E & _).
      rewrite callback_text_cons in E. simpl in E. injection E as -> E.
      apply (annotate_dotfree_prefix j) in E as (r' & ->);
        [|apply callback_tail_dotfree; auto using method_dotfree].
      assert (X : re_match (callback_pattern k) (callback_text k w ++ r')
                  = Some (length (callback_text k w), [(1, w)]))
        by (apply callback_match_iff; exists w, r'; auto).
      rewrite callback_text_cons in X. simpl in X.
      destruct H as [->|H].
      * congruence.
      * apply unmatched_cons in H as [H _]. congruence.
    + apply IH. destruct H as [H|H]; auto.
      right. apply unmatched_cons in H as [_ H]. exact H.
  - intros m s' g _ _ M IH H.
    apply callback_match_inv in M as (w & Hne & Hw & -> & ->).
    rewrite expand_callback, annotated_text_cons. simpl.
    apply unmatched_cons. split.
    + change (re_match (callback_pattern k)
                ((dot :: j ++ cps "((" ++ w ++ cps ": any) =>") ++ re_sub
                   (callback_pattern j) (template (callback_template j)) s')
              = None).
      rewrite <- annotated_text_cons. apply annotated_head; assumption.
    + change (unmatched k ((j ++ cps "((" ++ w ++ cps ": any) =>") ++ re_sub
                   (callback_pattern j) (template (callback_template j)) s')).
      apply unmatched_dotfree_app.
      * apply annotated_tail_dotfree; auto using method_dotfree.
      * apply IH. destruct H as [H|H]; auto.
        right. apply unmatched_app_r in H. exact H.
Qed.

Lemma annotate_all_unmatched (ks : list text) (k : text) :
  incl ks callback_methods -> In k callback_methods ->
  forall s, In k ks \/ unmatched k s -> unmatched k (annotate_all ks s).
Proof.
  intros Hks Hk. induction ks as [|j ks IH]; intros s H; simpl.
  - destruct H as [[]|H]. exact H.
  - apply IH.
    + intros x Hx. apply Hks. right. exact Hx.
    + assert (Hj : In j callback_methods) by (apply Hks; left; reflexivity).
      destruct H as [[->|H]|H].
      * right. apply annotate_unmatched; auto.
      * left. exact H.
      * right. apply annotate_unmatched; auto.
Qed.

Lemma annotate_all_id (ks : list text) (t : text) :
  Forall (fun m => unmatched m t) ks -> annotate_all ks t = t.
Proof.
  induction 1 as [|m ms Hm _ IH]; [reflexivity|].
  change (annotate_all ms (annotate m t) = t).
  unfold annotate. rewrite (re_sub_no_match _ _ _ Hm). exact IH.
Qed.

Lemma implicit_any_unmatched (t : text) :
  Forall (fun m => unmatched m (fix_implicit_any_params t)) callback_methods.
Proof.
  apply Forall_forall. intros k Hk.
  apply (annotate_all_unmatched callback_methods k); auto using incl_refl.
Qed.

(** The annotation stage is idempotent. *)
Lemma implicit_any_idempotent (t : text) :
  fix_implicit_any_params (fix_implicit_any_params t)
  = fix_implicit_any_params t.
Proof. apply (annotate_all_id callback_methods), implicit_any_unmatched. Qed.

(** ** Text the access-check rewrite cannot touch *)

Lemma cons_inj (c d : char) (a b : text) : c :: a = d :: b -> c = d /\ a = b.
Proof. intros H. injection H. auto. Qed.

Lemma tails_split (x x1 x2 : text) : x = x1 ++ x2 -> In x2 (tails x).
Proof.
  revert x. induction x1 as [|c x1 IH]; intros x ->; simpl.
  - destruct x2; left; reflexivity.
  - right. apply IH. reflexivity.
Qed.

Lemma response_stmt_head (q : char) (msg d t : text) :
  response_stmt q msg d ++ t
  = response_head ++ q :: msg ++ q :: response_mid ++ d ++ response_tail ++ t.
Proof.
  unfold response_stmt. rewrite <- app_assoc. simpl. rewrite <- app_assoc.
  simpl. rewrite <- !app_assoc. reflexivity.
Qed.

Section Untouched.

(** [x] is a text in which no response statement can begin, which cannot
    begin inside the fixed parts of a response statement, and which holds
    no quote. *)
Variable x0 : char.
Variable x' : text.
Let x := x0 :: x'.

Hypothesis no_start : forall x2 r r',
  In x2 (tails x) -> x2 <> [] -> x2 ++ r <> response_head ++ r'.
Hypothesis no_overlap : forall l2 r r',
  In l2 (tails response_head) -> l2 <> [] -> x ++ r <> l2 ++ r'.
Hypothesis no_quote : forall q, In q quote_chars -> ~ In q x.
Hypothesis head_not_mid : ~ In x0 response_mid.
Hypothesis head_not_digit : is_digit x0 = false.
Hypothesis head_not_tail : ~ In x0 response_tail.

Lemma rewrites_keeps_suffix (t u : text) :
  rewrites t u ->
  forall x2 b, In x2 (tails x) -> t = x2 ++ b -> exists b', u = x2 ++ b'.
Proof.
  induction 1 as [|c t u _ IH|q msg d t u Hq Hd _ IH]; intros x2 b Hx E.
  - symmetry in E. apply app_eq_nil in E as [-> _]. exists []. reflexivity.
  - destruct x2 as [|y x3].
    + exists (c :: u). reflexivity.
    + simpl in E. injection E as <- ->.
      destruct (IH x3 b) as (b' & ->); [|reflexivity|exists b'; reflexivity].
      clear - Hx. revert Hx. generalize x. intros z Hz.
      induction z as [|e z IHz]; simpl in Hz.
      * destruct Hz as [Hz|[]]. discriminate.
      * destruct Hz as [Hz|Hz].
        -- injection Hz as -> ->. simpl. right. destruct x3; left; reflexivity.
        -- simpl. right. apply IHz. exact Hz.
  - destruct x2 as [|y x3].
    + exists (throw_stmt q msg ++ u). reflexivity.
    + exfalso. rewrite response_stmt_head in E. symmetry in E.
      eapply no_start; [exact Hx | discriminate | exact E].
Qed.

Lemma rewrites_keeps (t u : text) :
  rewrites t u ->
  forall a b, t = a ++ x ++ b -> exists a' b', u = a' ++ x ++ b'.
Proof.
  induction 1 as [|c t u Hr IH|q msg d t u Hq Hd Hr IH]; intros a b E.
  - destruct a; discriminate.
  - destruct a as [|c' a].
    + simpl in E. injection E as -> ->.
      destruct (rewrites_keeps_suffix _ _ Hr x' b) as (b' & ->); auto.
      * simpl. right. destruct x'; left; reflexivity.
      * exists [], b'. reflexivity.
    + simpl in E. injection E as <- ->.
      destruct (IH a b eq_refl) as (a' & b' & ->).
      exists (c :: a'), b'. reflexivity.
  - destruct (app_eq_app_cases _ _ _ _ E) as [(l & -> & ->)|(e & l & E1 & E2)];
      clear E.
    + destruct (IH l b eq_refl) as (a' & b' & ->).
      exists (throw_stmt q msg ++ a'), b'. rewrite <- app_assoc. reflexivity.
    + subst x. simpl in E2. injection E2 as <- E2.
      unfold response_stmt in E1.
      destruct (app_eq_app_cases _ _ _ _ E1) as [(l1 & -> & E1')|(y & l7 & E1' & E3)];
        clear E1; rename E1' into E1.
      * destruct l1 as [|q' l2]; cbn [app] in E1;
          destruct (cons_inj _ _ _ _ E1) as [-> E1']; clear E1; rename E1' into E1.
        { exfalso. apply (no_quote x0 Hq). left. reflexivity. }
        destruct (app_eq_app_cases _ _ _ _ E1) as [(l3 & -> & E1')|(c' & l4 & -> & E1')];
          clear E1; rename E1' into E1.
        -- exfalso.
           assert (Hin : In x0 (q' :: response_mid ++ d ++ response_tail))
             by (rewrite E1; apply in_or_app; right; left; reflexivity).
           destruct Hin as [->|Hin].
           { apply (no_quote x0 Hq). left. reflexivity. }
           apply in_app_or in Hin as [Hin|Hin]; [contradiction|].
           apply in_app_or in Hin as [Hin|Hin]; [|contradiction].
           unfold all in Hd. rewrite Forall_forall in Hd.
           apply Hd in Hin. congruence.
        -- destruct (cons_inj _ _ _ _ E1) as [<- ->]. clear E1.
           assert (E : (x0 :: x') ++ b
                       = (x0 :: l4) ++ q' :: (response_mid ++ d
                                   ++ response_tail) ++ t).
           { cbn [app]. rewrite E2, <- app_assoc. reflexivity. }
           clear E2.
           destruct (app_eq_app_cases _ _ _ _ E)
             as [(l5 & E0 & ->)|(c2 & l6 & E0 & E')]; clear E.
           ++ exists (cps "throw new Error(" ++ q' :: l2),
                     (l5 ++ q' :: cps ")" ++ u).
              unfold throw_stmt. rewrite E0.
              repeat (rewrite <- app_assoc; cbn [app]). reflexivity.
           ++ exfalso. destruct (cons_inj _ _ _ _ E') as [<- _].
              apply (no_quote q' Hq). rewrite E0.
              apply in_or_app. right. left. reflexivity.
      * exfalso. injection E3 as <- ->.
        apply (no_overlap (x0 :: l7)
                 (b) ((q :: msg ++ q :: response_mid ++ d ++ response_tail) ++ t)).
        -- apply (tails_split _ a). exact E1.
        -- discriminate.
        -- simpl. rewrite E2. rewrite <- app_assoc. reflexivity.
Qed.

End Untouched.

(** ** Callbacks are out of reach of the access-check rewrite *)

Lemma tails_app (x2 a b : text) :
  In x2 (tails (a ++ b)) ->
  (exists a2, In a2 (tails a) /\ a2 <> [] /\ x2 = a2 ++ b) \/ In x2 (tails b).
Proof.
  induction a as [|c a IH]; simpl; intros H.
  - right. destruct b; exact H.
  - destruct H as [<-|H].
    + left. exists (c :: a). split; [left; reflexivity|]. split; [discriminate|reflexivity].
    + destruct (IH H) as [(a2 & Ha & Hne & ->)|Hb].
      * left. exists a2. auto.
      * right. exact Hb.
Qed.

Lemma tails_all (f : char -> bool) (w w2 : text) :
  all f w -> In w2 (tails w) -> all f w2.
Proof.
  intros Hw. induction Hw as [|c w Hc Hw IH]; simpl; intros H.
  - destruct H as [<-|[]]. constructor.
  - destruct H as [<-|H]; [constructor; assumption | auto].
Qed.

Ltac each_tail H :=
  simpl in H; repeat (destruct H as [<-|H]); [..|contradiction].

(** A run of word characters followed by [)] is not the start of a
    response statement. *)
Lemma word_paren_not_response (w r r' : text) :
  all is_word w -> w ++ cps ") =>" ++ r <> response_head ++ r'.
Proof.
  intros Hw E. unfold response_head in E.
  change (cps "return NextResponse.json({ error: " ++ r')
    with (cps "return" ++ 32%N :: (cps "NextResponse.json({ error: " ++ r')) in E.
  change (cps ") =>" ++ r) with (41%N :: (cps " =>" ++ r)) in E.
  apply (run_unique is_word) in E as (_ & E & _);
    auto using word_not_paren; try discriminate.
  repeat constructor.
Qed.

Lemma callback_no_start (m0 w x2 r r' : text) :
  In m0 callback_methods -> all is_word w ->
  In x2 (tails (callback_text m0 w)) -> x2 <> [] ->
  x2 ++ r <> response_head ++ r'.
Proof.
  intros Hm Hw Hx Hne.
  unfold callback_text in Hx. rewrite !app_assoc in Hx.
  rewrite <- (app_assoc _ w) in Hx.
  apply tails_app in Hx as [(a2 & Ha & Hne2 & ->)|Hx].
  - unfold response_head.
    each_method Hm; each_tail Ha; try (exfalso; apply Hne2; reflexivity);
      simpl; congruence.
  - apply tails_app in Hx as [(w2 & Hw2 & _ & ->)|Hx].
    + rewrite <- app_assoc. apply word_paren_not_response.
      eapply tails_all; eassumption.
    + unfold response_head.
      each_tail Hx; try (exfalso; apply Hne; reflexivity); simpl; congruence.
Qed.

Lemma callback_no_overlap (m0 w l2 r r' : text) :
  In m0 callback_methods ->
  In l2 (tails response_head) -> l2 <> [] ->
  callback_text m0 w ++ r <> l2 ++ r'.
Proof.
  intros Hm Hl Hne. unfold callback_text.
  unfold response_head in Hl.
  each_tail Hl; try (exfalso; apply Hne; reflexivity);
    each_method Hm; simpl; congruence.
Qed.

Lemma callback_no_quote (m0 w : text) (q : char) :
  In m0 callback_methods -> all is_word w ->
  In q quote_chars -> ~ In q (callback_text m0 w).
Proof.
  intros Hm Hw Hq Hin. unfold callback_text in Hin.
  repeat (apply in_app_or in Hin as [Hin|Hin]).
  - destruct Hq as [<-|[<-|[]]]; simpl in Hin; intuition discriminate.
  - destruct Hq as [<-|[<-|[]]]; each_method Hm; simpl in Hin;
      intuition discriminate.
  - destruct Hq as [<-|[<-|[]]]; simpl in Hin; intuition discriminate.
  - unfold all in Hw. rewrite Forall_forall in Hw. apply Hw in Hin.
    rewrite (word_not_quote q Hq) in Hin. discriminate.
  - destruct Hq as [<-|[<-|[]]]; simpl in Hin; intuition discriminate.
Qed.

Lemma rewrites_keeps_callback (m0 w t u : text) :
  In m0 callback_methods -> all is_word w ->
  rewrites t u ->
  forall a b, t = a ++ callback_text m0 w ++ b ->
  exists a' b', u = a' ++ callback_text m0 w ++ b'.
Proof.
  intros Hm Hw. rewrite callback_text_cons.
  apply rewrites_keeps.
  - intros x2 r r'. rewrite <- callback_text_cons.
    apply callback_no_start; assumption.
  - intros l2 r r'. rewrite <- callback_text_cons.
    apply callback_no_overlap; assumption.
  - intros q. rewrite <- callback_text_cons.
    apply callback_no_quote; assumption.
  - unfold response_mid, dot. simpl. intuition discriminate.
  - reflexivity.
  - unfold response_tail, dot. simpl. intuition discriminate.
Qed.

(** ** The six rules around a callback *)

Lemma last_in_suffix (u v w : text) (z : char) :
  u ++ v = w ++ [z] -> v <> [] -> In z v.
Proof.
  intros E Hv. destruct (exists_last Hv) as (v' & y & ->).
  rewrite app_assoc in E. apply app_inj_tail in E as [_ ->].
  apply in_or_app. right. left. reflexivity.
Qed.

(** A match ends with [>], so text without dots and without [>] at the end
    of the input is copied. *)
Lemma annotate_tail (k a x : text) :
  dotfree x -> ~ In 62%N x -> annotate k (a ++ x) = annotate k a ++ x.
Proof.
  intros Hx Hgt.
  induction a as [a IH] using (induction_ltof1 _ (@length char)).
  unfold ltof in IH. destruct a as [|c a].
  - rewrite annotate_nil. apply annotate_dotfree. exact Hx.
  - destruct (re_match (callback_pattern k) ((c :: a) ++ x))
      as [[n g]|] eqn:E.
    + apply callback_match_iff in E as (w & r & Hne & Hw & Hs & _ & _).
      symmetry in Hs.
      destruct (app_eq_app_cases _ _ _ _ Hs) as [(l & Ha & ->)|(e & l & E1 & E2)].
      * rewrite Ha, <- !app_assoc. rewrite !annotate_match by assumption.
        rewrite IH, app_assoc; [reflexivity|].
        rewrite Ha, length_app. rewrite callback_text_cons. simpl. lia.
      * exfalso. apply Hgt. rewrite E2.
        change (e :: l ++ r) with ((e :: l) ++ r). apply in_or_app. left.
        apply (last_in_suffix (c :: a) (e :: l)
                 (cps "." ++ k ++ cps "((" ++ w ++ cps ") =")).
        -- rewrite <- E1. unfold callback_text. rewrite <- !app_assoc.
           reflexivity.
        -- discriminate.
    + assert (E' : re_match (callback_pattern k) (c :: a) = None).
      { apply callback_match_none. intros (w & r & Hne & Hw & Hs).
        apply callback_match_none in E. apply E.
        exists w, (r ++ x). rewrite Hs, <- app_assoc. auto. }
      simpl app in *. rewrite !annotate_cons by assumption.
      rewrite IH by (simpl; lia). reflexivity.
Qed.

Lemma annotate_all_cons (k : text) (ks : list text) (t : text) :
  annotate_all (k :: ks) t = annotate_all ks (annotate k t).
Proof. reflexivity. Qed.

Lemma annotate_all_tail (ks : list text) (a x : text) :
  dotfree x -> ~ In 62%N x ->
  annotate_all ks (a ++ x) = annotate_all ks a ++ x.
Proof.
  intros Hx Hgt. revert a. induction ks as [|k ks IH]; intros a; auto.
  rewrite !annotate_all_cons, annotate_tail by assumption. apply IH.
Qed.

Lemma annotate_all_annotated (ks : list text) (m0 w a b : text) :
  incl ks callback_methods -> In m0 callback_methods -> all is_word w ->
  annotate_all ks (a ++ annotated_text m0 w ++ b)
  = annotate_all ks a ++ annotated_text m0 w ++ annotate_all ks b.
Proof.
  intros Hks Hm Hw. revert a b. induction ks as [|k ks IH]; intros a b; auto.
  rewrite !annotate_all_cons, annotate_annotated; auto.
  - apply IH. intros y Hy. apply Hks. right. exact Hy.
  - apply Hks. left. reflexivity.
Qed.

Lemma text_eq_dec (a b : text) : {a = b} + {a <> b}.
Proof. apply list_eq_dec, N.eq_dec. Qed.

Lemma annotate_all_callback (ks : list text) (m0 w a b : text) :
  incl ks callback_methods -> In m0 callback_methods ->
  w <> [] -> all is_word w ->
  annotate_all ks (a ++ callback_text m0 w ++ b)
  = annotate_all ks a
    ++ (if in_dec text_eq_dec m0 ks then annotated_text m0 w
        else callback_text m0 w)
    ++ annotate_all ks b.
Proof.
  intros Hks Hm Hne Hw. revert a b.
  induction ks as [|k ks IH]; intros a b; auto.
  assert (Hk : In k callback_methods) by (apply Hks; left; reflexivity).
  assert (Hks' : incl ks callback_methods)
    by (intros y Hy; apply Hks; right; exact Hy).
  rewrite !annotate_all_cons.
  destruct (text_eq_dec k m0) as [->|Hkm].
  - rewrite annotate_callback_same, annotate_all_annotated by assumption.
    destruct (in_dec text_eq_dec m0 (m0 :: ks)) as [_|N]; [reflexivity|].
    exfalso. apply N. left. reflexivity.
  - rewrite annotate_callback_other, IH by assumption.
    destruct (in_dec text_eq_dec m0 ks) as [I|N];
      destruct (in_dec text_eq_dec m0 (k :: ks)) as [I'|N']; auto.
    + exfalso. apply N'. right. exact I.
    + exfalso. destruct I' as [E|I']; [congruence | contradiction].
Qed.

Lemma implicit_any_callback (m0 w a b : text) :
  In m0 callback_methods -> w <> [] -> all is_word w ->
  fix_implicit_any_params (a ++ callback_text m0 w ++ b)
  = fix_implicit_any_params a ++ annotated_text m0 w
    ++ fix_implicit_any_params b.
Proof.
  intros Hm Hne Hw. unfold fix_implicit_any_params.
  change (annotate_all callback_methods (a ++ callback_text m0 w ++ b)
          = annotate_all callback_methods a ++ annotated_text m0 w
            ++ annotate_all callback_methods b).
  rewrite annotate_all_callback; auto using incl_refl.
  destruct (in_dec text_eq_dec m0 callback_methods); [reflexivity|contradiction].
Qed.

Lemma check_admin_access_keeps_callback (m0 w a b : text) :
  In m0 callback_methods -> all is_word w ->
  exists a1 b1,
    fix_check_admin_access (a ++ callback_text m0 w ++ b)
    = a1 ++ callback_text m0 w ++ b1.
Proof.
  intros Hm Hw.
  apply (rewrites_keeps_callback m0 w (a ++ callback_text m0 w ++ b)
           _ Hm Hw (check_admin_access_rewrites _) a b eq_refl).
Qed.

(** ** The example callback *)

Lemma callback_ts_parts :
  callback_ts
  = cps "items" ++ callback_text (cps "forEach") (cps "x") ++ cps " x.run());".
Proof. reflexivity. Qed.

Lemma annotated_ts_parts :
  annotated_ts
  = cps "items" ++ annotated_text (cps "forEach") (cps "x") ++ cps " x.run());".
Proof. reflexivity. Qed.

Lemma rewrites_keeps_callback_ts (t u : text) :
  rewrites t u ->
  forall a b, t = a ++ callback_ts ++ b ->
  exists a' b', u = a' ++ callback_ts ++ b'.
Proof.
  change callback_ts with (105%N :: cps "tems.forEach((x) => x.run());").
  apply rewrites_keeps.
  - intros x2 r r' Hx Hne. unfold response_head.
    each_tail Hx; try (exfalso; apply Hne; reflexivity); simpl; congruence.
  - intros l2 r r' Hl Hne. unfold response_head in Hl.
    each_tail Hl; try (exfalso; apply Hne; reflexivity); simpl; congruence.
  - intros q [<-|[<-|[]]]; simpl; intuition discriminate.
  - unfold response_mid. simpl. intuition discriminate.
  - reflexivity.
  - unfold response_tail. simpl. intuition discriminate.
Qed.

Lemma annotate_all_run_head (ks : list text) (b : text) :
  incl ks callback_methods ->
  annotate_all ks (cps " x.run());" ++ b)
  = cps " x.run());" ++ annotate_all ks b.
Proof.
  intros Hks. revert b. induction ks as [|k ks IH]; intros b; auto.
  assert (Hk : In k callback_methods) by (apply Hks; left; reflexivity).
  rewrite !annotate_all_cons.
  change (cps " x.run());" ++ b)
    with (cps " x" ++ (dot :: cps "run());") ++ b).
  rewrite annotate_dotfree_app by (unfold dotfree; simpl; intuition discriminate).
  rewrite annotate_inert.
  - apply IH. intros y Hy. apply Hks. right. exact Hy.
  - unfold dotfree; simpl; intuition discriminate.
  - apply callback_match_none. intros (w & r & _ & _ & E).
    unfold callback_text in E. each_method Hk; simpl in E; congruence.
Qed.

(** C5 (amended): wherever [items.forEach((x) => x.run());] stands in the
    input, the access-check stage leaves it in place and the annotation
    stage turns it into [items.forEach((x: any) => x.run());], the text on
    either side being annotated on its own; the same holds for every
    parenthesised parameter made of word characters, [.m((w) =>] with [m]
    one of the six methods, which becomes [.m((w: any) =>]. *)
Theorem callbacks_annotated
    (m w a b : text)
    (Hm : In m callback_methods) (Hne : w <> []) (Hw : all is_word w) :
  (exists a1 b1,
     fix_check_admin_access (a ++ callback_ts ++ b) = a1 ++ callback_ts ++ b1 /\
     pipeline (a ++ callback_ts ++ b)
     = fix_implicit_any_params a1 ++ annotated_ts
       ++ fix_implicit_any_params b1) /\
  (exists a1 b1,
     fix_check_admin_access (a ++ callback_text m w ++ b)
     = a1 ++ callback_text m w ++ b1 /\
     pipeline (a ++ callback_text m w ++ b)
     = fix_implicit_any_params a1 ++ annotated_text m w
       ++ fix_implicit_any_params b1).
Proof.
  split.
  - destruct (rewrites_keeps_callback_ts _ _
                (check_admin_access_rewrites (a ++ callback_ts ++ b))
                a b eq_refl) as (a1 & b1 & E).
    exists a1, b1. split; [exact E|].
    unfold pipeline. rewrite E, callback_ts_parts, annotated_ts_parts.
    rewrite <- !app_assoc. rewrite (app_assoc a1).
    rewrite implicit_any_callback;
      [|simpl; auto | discriminate | repeat constructor].
    unfold fix_implicit_any_params.
    change (fold_left (fun c m0 => annotate m0 c) callback_methods)
      with (annotate_all callback_methods).
    rewrite annotate_all_tail
      by (unfold dotfree; simpl; intuition discriminate).
    rewrite annotate_all_run_head by apply incl_refl.
    rewrite <- !app_assoc. reflexivity.
  - destruct (check_admin_access_keeps_callback m w a b Hm Hw)
      as (a1 & b1 & E).
    exists a1, b1. split; [exact E|].
    unfold pipeline. rewrite E. apply implicit_any_callback; assumption.
Qed.

(** C6 (amended): the annotation stage is idempotent on every text,
    without any condition; the pipeline is idempotent on every text whose
    first pass leaves no match of the access-check pattern behind. *)
Theorem pipeline_idempotent_when_normalized (t : text) :
  fix_implicit_any_params (fix_implicit_any_params t)
  = fix_implicit_any_params t /\
  (re_search admin_pattern (pipeline t) = false ->
   pipeline (pipeline t) = pipeline t).
Proof.
  split; [apply implicit_any_idempotent|].
  intros Hnorm.
  unfold pipeline at 1. unfold fix_check_admin_access.
  rewrite (re_sub_no_match _ _ _ Hnorm).
  unfold pipeline. apply implicit_any_idempotent.
Qed.

(** ** [re.sub] over a prefix without matches *)

Lemma re_sub_skip_prefix (r : regex) (repl : text -> groups -> text)
    (pre rest : text) :
  (forall p2, In p2 (tails pre) -> p2 <> [] -> re_match r (p2 ++ rest) = None) ->
  re_sub r repl (pre ++ rest) = pre ++ re_sub r repl rest.
Proof.
  induction pre as [|c pre IH]; intros H; [reflexivity|].
  simpl. rewrite re_sub_cons.
  - rewrite IH; [reflexivity|]. intros p2 Hp. apply H. simpl. right. exact Hp.
  - apply (H (c :: pre)); [left; reflexivity | discriminate].
Qed.

(** ** Matches of the response pattern *)

Lemma quote_not_none_of (q : char) :
  In q quote_chars -> none_of quote_chars q = false.
Proof. intros [<-|[<-|[]]]; reflexivity. Qed.

Lemma response_matches (q : char) (msg d : text) :
  In q quote_chars -> msg <> [] -> all (none_of quote_chars) msg ->
  d <> [] -> all is_digit d ->
  matches response_pattern [] (response_stmt q msg d) [(2, msg); (1, [q])].
Proof.
  intros Hq Hm Hmsg Hd Hdig. unfold response_pattern, response_stmt.
  cbn [seq].
  change (q :: msg ++ q :: response_mid ++ d ++ response_tail)
    with ([q] ++ msg ++ [q] ++ response_mid ++ d ++ response_tail).
  eapply m_seq; [apply m_lit|].
  eapply m_seq; [apply m_group, m_cls, one_of_In, Hq|].
  eapply m_seq; [apply m_group, m_plus; assumption|].
  eapply m_seq; [apply m_backref; reflexivity|].
  eapply m_seq; [apply m_lit|].
  eapply m_seq; [apply m_plus; assumption | apply m_lit].
Qed.

Lemma response_stmt_inj (q q' : char) (msg msg' d d' r r' : text) :
  In q quote_chars -> In q' quote_chars ->
  all (none_of quote_chars) msg -> all (none_of quote_chars) msg' ->
  all is_digit d -> all is_digit d' ->
  response_stmt q msg d ++ r = response_stmt q' msg' d' ++ r' ->
  q = q' /\ msg = msg' /\ d = d' /\ r = r'.
Proof.
  intros Hq Hq' Hm Hm' Hd Hd' E. rewrite !response_stmt_head in E.
  apply app_inv_head in E. destruct (cons_inj _ _ _ _ E) as [<- E1]. clear E.
  apply (run_unique (none_of quote_chars)) in E1 as (<- & _ & E);
    auto using quote_not_none_of.
  apply app_inv_head in E.
  unfold response_tail in E. cbn [cps map list_ascii_of_string app] in E.
  apply (run_unique is_digit) in E as (<- & _ & E); auto.
  injection E as ->. auto.
Qed.

Lemma response_match_at (q : char) (msg d r : text) :
  In q quote_chars -> msg <> [] -> all (none_of quote_chars) msg ->
  d <> [] -> all is_digit d ->
  re_match response_pattern (response_stmt q msg d ++ r)
  = Some (length (response_stmt q msg d), [(2, msg); (1, [q])]).
Proof.
  intros Hq Hm Hmsg Hd Hdig.
  pose proof (re_match_complete _ _ r _
                (response_matches q msg d Hq Hm Hmsg Hd Hdig)) as C.
  destruct (re_match response_pattern (response_stmt q msg d ++ r))
    as [[n g]|] eqn:E; [|congruence].
  apply re_match_sound in E as (m & s' & Hs & -> & M).
  apply response_match_inv in M
    as (q' & msg' & d' & Hq' & _ & Hmsg' & _ & Hdig' & -> & ->).
  apply response_stmt_inj in Hs as (-> & -> & -> & _); auto.
Qed.

(** ** Matches of the access-check pattern *)

Lemma admin_match_flat (ps a v1 b v2 w1 body d semi w2 : text) :
  admin_match ps a v1 b v2 w1 body d semi w2
  = cps "async function checkAdminAccess(" ++ ps ++
    41%N :: cps ": Promise<boolean> {" ++ block_inner a v1 b v2 w1 body ++
    125%N :: cps ", { status: " ++ d ++
    32%N :: cps "})" ++ semi ++ w2 ++ cps "}".
Proof.
  unfold admin_match, block_inner. repeat rewrite <- app_assoc. reflexivity.
Qed.

Lemma all_none_of_lit (l s : text) :
  forallb (none_of l) s = true -> all (none_of l) s.
Proof. intros H. apply Forall_forall. apply forallb_forall. exact H. Qed.

Lemma space_not_brace (c : char) :
  is_space c = true -> none_of (cps "}") c = true.
Proof.
  intros H. apply none_of_In. intros [<-|[]]. discriminate.
Qed.

Lemma name_no_brace (v : text) :
  In v firestore_names -> all (none_of (cps "}")) v.
Proof. intros [<-|[<-|[]]]; apply all_none_of_lit; reflexivity. Qed.

Lemma block_inner_no_brace (ps a v1 b v2 w1 body d semi w2 : text) :
  admin_parts ps a v1 b v2 w1 body d semi w2 ->
  all (none_of (cps "}")) (block_inner a v1 b v2 w1 body).
Proof.
  intros P. destruct P. unfold block_inner.
  repeat (apply all_app; split); auto using name_no_brace;
    try (apply all_none_of_lit; reflexivity).
  unfold all in *. rewrite Forall_forall in *. auto using space_not_brace.
Qed.

Lemma semi_space_unique (semi semi' w2 w2' r r' : text) :
  semi = [] \/ semi = cps ";" -> semi' = [] \/ semi' = cps ";" ->
  all is_space w2 -> all is_space w2' ->
  semi ++ w2 ++ cps "}" ++ r = semi' ++ w2' ++ cps "}" ++ r' ->
  semi = semi' /\ w2 = w2' /\ r = r'.
Proof.
  intros Hs Hs' Hw Hw' E.
  assert (B : is_space 125%N = false) by reflexivity.
  assert (Hsemi : forall w x y, all is_space w ->
                    59%N :: x <> w ++ 125%N :: y).
  { intros w x y Hx X. destruct Hx as [|c w Hc _]; simpl in X.
    - discriminate.
    - injection X as <- _. discriminate. }
  destruct Hs as [-> | ->]; destruct Hs' as [-> | ->]; cbn [app cps map list_ascii_of_string] in E.
  - apply (run_unique is_space) in E as (-> & _ & ->); auto.
  - symmetry in E. apply Hsemi in E; [contradiction | assumption].
  - apply Hsemi in E; [contradiction | assumption].
  - injection E as E.
    apply (run_unique is_space) in E as (-> & _ & ->); auto.
Qed.

Lemma admin_match_unique
    (ps a v1 b v2 w1 body d semi w2 ps' a' v1' b' v2' w1' body' d' semi' w2'
       r r' : text) :
  admin_parts ps a v1 b v2 w1 body d semi w2 ->
  admin_parts ps' a' v1' b' v2' w1' body' d' semi' w2' ->
  admin_match ps a v1 b v2 w1 body d semi w2 ++ r
  = admin_match ps' a' v1' b' v2' w1' body' d' semi' w2' ++ r' ->
  admin_match ps a v1 b v2 w1 body d semi w2
  = admin_match ps' a' v1' b' v2' w1' body' d' semi' w2'.
Proof.
  intros P P' E.
  pose proof (block_inner_no_brace _ _ _ _ _ _ _ _ _ _ P) as I.
  pose proof (block_inner_no_brace _ _ _ _ _ _ _ _ _ _ P') as I'.
  rewrite !admin_match_flat in *.
  repeat (rewrite <- app_assoc in E; cbn [app] in E).
  apply app_inv_head in E.
  apply (run_unique (none_of (cps ")"))) in E as (<- & _ & E);
    try reflexivity; try apply P; try apply P'.
  apply app_inv_head in E.
  apply (run_unique (none_of (cps "}"))) in E as (<- & _ & E);
    try reflexivity; try assumption.
  apply app_inv_head in E.
  apply (run_unique is_digit) in E as (<- & _ & E);
    try reflexivity; try apply P; try apply P'.
  change (cps "})" ++ semi ++ w2 ++ cps "}" ++ r
          = cps "})" ++ semi' ++ w2' ++ cps "}" ++ r') in E.
  apply app_inv_head in E.
  apply semi_space_unique in E as (<- & <- & _);
    try apply P; try apply P'.
  reflexivity.
Qed.

Lemma name_matches (v : text) (g : groups) :
  In v firestore_names -> matches firestore_name g v g.
Proof.
  intros [<-|[<-|[]]]; unfold firestore_name;
    [apply m_alt_l | apply m_alt_r]; apply m_lit.
Qed.

Lemma admin_matches (ps a v1 b v2 w1 body d semi w2 : text) :
  admin_parts ps a v1 b v2 w1 body d semi w2 ->
  exists g, matches admin_pattern [] (admin_match ps a v1 b v2 w1 body d semi w2) g.
Proof.
  intros P. destruct P. eexists. unfold admin_pattern. cbn [seq].
  replace (admin_match ps a v1 b v2 w1 body d semi w2)
    with ((cps "async function checkAdminAccess(" ++ ps ++
           cps "): Promise<boolean> {" ++ a ++ cps "const " ++ v1 ++
           cps " = getFirebaseFirestore();" ++ b) ++
          cps "if (!" ++ v2 ++ cps ") {" ++ w1 ++
          cps "return NextResponse.json(" ++ body ++
          cps "}, { status: " ++ d ++ cps " })" ++ semi ++ w2 ++ cps "}")
    by (unfold admin_match; repeat rewrite <- app_assoc; reflexivity).
  eapply m_seq.
  { apply m_group.
    eapply m_seq; [apply m_lit|].
    eapply m_seq; [apply m_plus; assumption|].
    eapply m_seq; [apply m_lit|].
    eapply m_seq; [apply m_star; assumption|].
    eapply m_seq; [apply m_lit|].
    eapply m_seq; [apply name_matches; assumption|].
    eapply m_seq; [apply m_lit|].
    apply m_star; assumption. }
  eapply m_seq; [apply m_lit|].
  eapply m_seq; [apply name_matches; assumption|].
  eapply m_seq; [apply m_lit|].
  eapply m_seq; [apply m_star; assumption|].
  eapply m_seq; [apply m_lit|].
  eapply m_seq; [apply m_plus; assumption|].
  eapply m_seq; [apply m_lit|].
  eapply m_seq; [apply m_plus; assumption|].
  eapply m_seq; [apply m_lit|].
  eapply m_seq.
  { destruct semi_opt0 as [-> | ->]; [apply m_opt_none | apply m_opt_some, m_lit]. }
  eapply m_seq; [apply m_star; assumption | apply m_lit].
Qed.

(** The pattern matches at the head of a text that starts with a block,
    and the match is the block. *)
Lemma admin_match_at (ps a v1 b v2 w1 body d semi w2 r : text) :
  admin_parts ps a v1 b v2 w1 body d semi w2 ->
  exists g,
    re_match admin_pattern (admin_match ps a v1 b v2 w1 body d semi w2 ++ r)
    = Some (length (admin_match ps a v1 b v2 w1 body d semi w2), g).
Proof.
  intros P. destruct (admin_matches _ _ _ _ _ _ _ _ _ _ P) as (g0 & M0).
  pose proof (re_match_complete _ _ r _ M0) as C.
  destruct (re_match admin_pattern _) as [[n g]|] eqn:E; [|congruence].
  exists g. apply re_match_sound in E as (m & s' & Hs & -> & M).
  apply admin_match_inv in M
    as (ps' & a' & v1' & b' & v2' & w1' & body' & d' & semi' & w2' & P' & ->).
  apply admin_match_unique in Hs; auto. rewrite Hs. reflexivity.
Qed.

(** ** The rewrite of the example block *)

Lemma access_block_match (ps a v1 b v2 w1 w2 : text) :
  access_block ps a v1 b v2 w1 w2
  = admin_match ps a v1 b v2 w1 forbidden_body forbidden_status semicolon w2.
Proof.
  unfold access_block, block_prefix, admin_match.
  repeat rewrite <- app_assoc. reflexivity.
Qed.

Lemma access_block_stmt (ps a v1 b v2 w1 w2 : text) :
  access_block ps a v1 b v2 w1 w2
  = block_prefix ps a v1 b v2 w1
    ++ response_stmt 39%N (cps "Forbidden") (cps "403")
    ++ cps ";" ++ w2 ++ cps "}".
Proof. reflexivity. Qed.

Lemma fixed_block_stmt (ps a v1 b v2 w1 w2 : text) :
  fixed_block ps a v1 b v2 w1 w2
  = block_prefix ps a v1 b v2 w1
    ++ throw_stmt 39%N (cps "Forbidden")
    ++ cps ";" ++ w2 ++ cps "}".
Proof. reflexivity. Qed.

Lemma space_not_quote (c : char) :
  is_space c = true -> none_of quote_chars c = true.
Proof.
  intros H. apply none_of_In. intros [<-|[<-|[]]]; discriminate.
Qed.

Lemma name_no_quote (v : text) :
  In v firestore_names -> all (none_of quote_chars) v.
Proof. intros [<-|[<-|[]]]; apply all_none_of_lit; reflexivity. Qed.

Lemma block_prefix_no_quote (ps a v1 b v2 w1 body d semi w2 : text) :
  admin_parts ps a v1 b v2 w1 body d semi w2 ->
  all (none_of quote_chars) (ps ++ a ++ b) ->
  all (none_of quote_chars) (block_prefix ps a v1 b v2 w1).
Proof.
  intros P Q. destruct P.
  apply all_app in Q as [Qps Q]. apply all_app in Q as [Qa Qb].
  unfold block_prefix.
  repeat (apply all_app; split); auto using name_no_quote;
    try (apply all_none_of_lit; reflexivity).
  unfold all in *. rewrite Forall_forall in *. auto using space_not_quote.
Qed.

(** A character that occurs neither in [h] nor in [p2] cannot follow [h]
    at the head of [p2 ++ h ++ r] when [p2] is not empty. *)
Lemma shifted_char (h p2 r r' : text) (q : char) :
  ~ In q h -> ~ In q p2 -> p2 <> [] -> p2 ++ h ++ r <> h ++ q :: r'.
Proof.
  intros Hh Hp Hne E. rewrite app_assoc in E.
  destruct (app_eq_app_cases _ _ _ _ E) as [(l & E1 & _)|(c & l & E1 & E2)].
  - apply (f_equal (@length char)) in E1. rewrite !length_app in E1.
    destruct p2; [congruence | simpl in E1; lia].
  - destruct (cons_inj _ _ _ _ E2) as [<- _].
    assert (X : In q (p2 ++ h))
      by (rewrite E1; apply in_or_app; right; left; reflexivity).
    apply in_app_or in X as [X|X]; contradiction.
Qed.

(** A response statement does not begin in quote-free text that runs up to
    a response statement. *)
Lemma no_response_before (p2 r r' : text) (q : char) :
  In q quote_chars -> all (none_of quote_chars) p2 -> p2 <> [] ->
  p2 ++ response_head ++ r <> response_head ++ q :: r'.
Proof.
  intros Hq Hp Hne. apply shifted_char; auto.
  - destruct Hq as [<-|[<-|[]]]; unfold response_head; simpl;
      intuition discriminate.
  - intros Hin. unfold all in Hp. rewrite Forall_forall in Hp.
    apply Hp in Hin. rewrite quote_not_none_of in Hin; [discriminate | exact Hq].
Qed.

Lemma response_starts_with_r (c : char) (s : text) :
  c <> 114%N -> re_match response_pattern (c :: s) = None.
Proof.
  intros Hc. destruct (re_match response_pattern (c :: s)) as [[n g]|] eqn:E; auto.
  exfalso. apply re_match_sound in E as (m & s' & Hs & _ & M).
  apply response_match_inv in M as (q & msg & d & _ & _ & _ & _ & _ & -> & _).
  rewrite response_stmt_head in Hs. unfold response_head in Hs.
  injection Hs as -> _. congruence.
Qed.

Lemma response_search_no_r (s : text) :
  ~ In 114%N s -> re_search response_pattern s = false.
Proof.
  induction s as [|c s IH]; intros H; [reflexivity|].
  cbn [re_search]. rewrite response_starts_with_r.
  - apply IH. intros X. apply H. right. exact X.
  - intros ->. apply H. left. reflexivity.
Qed.

(** ** Response statements that begin before the block's own *)

Lemma block_prefix_split (ps a v1 b v2 w1 : text) :
  block_prefix ps a v1 b v2 w1
  = (cps "async function checkAdminAccess(" ++ ps) ++ block_body a v1 b v2 w1.
Proof. unfold block_prefix, block_body. rewrite <- app_assoc. reflexivity. Qed.

Lemma block_body_no_brace (ps a v1 b v2 w1 body d semi w2 : text) :
  admin_parts ps a v1 b v2 w1 body d semi w2 ->
  all (none_of (cps "}")) (block_body a v1 b v2 w1).
Proof.
  intros P. destruct P. unfold block_body.
  repeat (apply all_app; split); auto using name_no_brace;
    try (apply all_none_of_lit; reflexivity).
  unfold all in *. rewrite Forall_forall in *. auto using space_not_brace.
Qed.

Lemma quote_not_in (q : char) (s : text) :
  In q quote_chars -> all (none_of quote_chars) s -> ~ In q s.
Proof.
  intros Hq Hs Hin. unfold all in Hs. rewrite Forall_forall in Hs.
  apply Hs in Hin. rewrite quote_not_none_of in Hin; [discriminate | exact Hq].
Qed.

Lemma brace_not_in (s : text) : all (none_of (cps "}")) s -> ~ In 125%N s.
Proof.
  intros Hs Hin. unfold all in Hs. rewrite Forall_forall in Hs.
  apply Hs in Hin. discriminate.
Qed.

(** A response statement that begins in [x ++ y], before a response
    statement with a brace-free message, has the closing brace of its
    object inside [x] when [y] holds no closing brace: it ends before the
    other statement begins. *)
Lemma response_before_response (x y r0 s' msg msg0 d : text) (q q0 : char) :
  x ++ y <> [] -> all (none_of (cps "}")) y ->
  In q0 quote_chars -> all (none_of quote_chars) msg ->
  msg0 <> [] -> all (none_of (cps "}")) msg0 ->
  (x ++ y) ++ response_head ++ q0 :: msg0 ++ q0 :: r0
  = response_stmt q msg d ++ s' ->
  exists l,
    x = (response_head ++ q :: msg ++ [q; 32%N]) ++ 125%N :: l /\
    cps ", { status: " ++ d ++ response_tail ++ s'
    = l ++ y ++ response_head ++ q0 :: msg0 ++ q0 :: r0.
Proof.
  intros Hne Hy Hq0 Hmsg Hm0 Hb0 E.
  assert (Q32 : q0 <> 32%N) by (destruct Hq0 as [<-|[<-|[]]]; discriminate).
  assert (Q125 : q0 <> 125%N) by (destruct Hq0 as [<-|[<-|[]]]; discriminate).
  assert (QH : ~ In q0 response_head)
    by (destruct Hq0 as [<-|[<-|[]]]; unfold response_head; simpl;
        intuition discriminate).
  assert (BH : all (none_of (cps "}")) response_head)
    by (apply all_none_of_lit; reflexivity).
  rewrite response_stmt_head in E.
  change (response_mid ++ d ++ response_tail ++ s')
    with (32%N :: 125%N :: cps ", { status: " ++ d ++ response_tail ++ s') in E.
  set (z := cps ", { status: " ++ d ++ response_tail ++ s') in *.
  set (t0 := msg0 ++ q0 :: r0) in *.
  assert (E' : ((x ++ y) ++ response_head) ++ q0 :: t0
               = (response_head ++ q :: msg) ++ q :: 32%N :: 125%N :: z).
  { rewrite <- !app_assoc. rewrite <- !app_assoc in E. exact E. }
  clear E.
  destruct (app_eq_app_cases _ _ _ _ E') as [(l & E1 & E2)|(c & l & E1 & E2)].
  - exfalso. destruct l as [|c l].
    + destruct (cons_inj _ _ _ _ E2) as [_ E3]. unfold t0 in E3.
      destruct msg0 as [|c0 [|c1 msg0]]; [congruence | |].
      * simpl in E3. injection E3 as _ E3 _. congruence.
      * simpl in E3. injection E3 as _ E3 _.
        apply brace_not_in in Hb0. apply Hb0. right. left. exact E3.
    + destruct (cons_inj _ _ _ _ E2) as [<- _].
      destruct (app_eq_app_cases _ _ _ _ E1) as [(l3 & E3 & E4)|(c' & l5 & E3 & _)].
      * destruct l3 as [|c3 l3].
        -- rewrite app_nil_r in E3.
           apply (f_equal (@length char)) in E3. rewrite length_app in E3.
           destruct (x ++ y); [congruence | simpl in E3; lia].
        -- destruct (cons_inj _ _ _ _ E4) as [_ E5].
           apply (quote_not_in q0 msg Hq0 Hmsg). rewrite E5.
           apply in_or_app. right. left. reflexivity.
      * apply (f_equal (@length char)) in E3. rewrite !length_app in E3.
        simpl in E3. lia.
  - destruct (cons_inj _ _ _ _ E2) as [<- E3]. clear E2.
    destruct l as [|c1 [|c2 l]].
    + exfalso. simpl in E3. injection E3 as E3 _. congruence.
    + exfalso. simpl in E3. injection E3 as _ E3 _. congruence.
    + simpl in E3. injection E3 as <- <- E3.
      assert (E4 : x ++ (y ++ response_head)
                   = (response_head ++ q :: msg ++ [q; 32%N]) ++ 125%N :: l).
      { rewrite app_assoc, E1. rewrite <- !app_assoc. simpl.
        rewrite <- !app_assoc. reflexivity. }
      destruct (app_eq_app_cases _ _ _ _ E4) as [(l5 & _ & E5)|(c' & l6 & E5 & E6)].
      * exfalso.
        assert (B : all (none_of (cps "}")) (y ++ response_head))
          by (apply all_app; split; assumption).
        apply brace_not_in in B. apply B. rewrite E5.
        apply in_or_app. right. left. reflexivity.
      * destruct (cons_inj _ _ _ _ E6) as [<- E7].
        exists l6. split; [exact E5|].
        rewrite E3, E7. unfold t0. rewrite <- !app_assoc. reflexivity.
Qed.

Lemma digit_not_paren (c : char) :
  is_digit c = true -> none_of (cps ")") c = true.
Proof.
  intros H. apply none_of_In. intros [<-|[]]. discriminate.
Qed.

(** Inside an access-check block, a response statement that begins before
    the block's own response statement lies in the parameter list: it
    begins there and ends with the parenthesis that closes the list. *)
Lemma response_in_block_prefix
    (ps a v1 b v2 w1 body d0 semi w2 p2 r0 s' msg msg0 d : text)
    (q q0 : char) :
  admin_parts ps a v1 b v2 w1 body d0 semi w2 ->
  In q0 quote_chars -> msg0 <> [] -> all (none_of (cps "}")) msg0 ->
  In p2 (tails (block_prefix ps a v1 b v2 w1)) -> p2 <> [] ->
  all (none_of quote_chars) msg -> all is_digit d ->
  p2 ++ response_head ++ q0 :: msg0 ++ q0 :: r0 = response_stmt q msg d ++ s' ->
  exists x l,
    In x (tails (cps "async function checkAdminAccess(" ++ ps)) /\
    p2 = x ++ block_body a v1 b v2 w1 /\
    x = (response_head ++ q :: msg ++ [q; 32%N]) ++ 125%N :: l /\
    length (response_stmt q msg d) = S (length x).
Proof.
  intros P Hq0 Hm0 Hb0 Hp Hne Hmsg Hd E.
  pose proof (block_body_no_brace _ _ _ _ _ _ _ _ _ _ P) as B.
  rewrite block_prefix_split in Hp.
  apply tails_app in Hp as [(x & Hx & Hxne & ->)|Hp].
  - destruct (response_before_response _ _ _ _ _ _ _ _ _
                Hne B Hq0 Hmsg Hm0 Hb0 E) as (l & Ex & El).
    exists x, l. split; [exact Hx|]. split; [reflexivity|].
    split; [exact Ex|].
    assert (Px : all (none_of (cps ")")) x).
    { eapply tails_all; [|exact Hx]. apply all_app. split.
      - apply all_none_of_lit. reflexivity.
      - apply P. }
    assert (Pl : all (none_of (cps ")")) l).
    { rewrite Ex in Px. apply all_app in Px as [_ Px].
      inversion Px; assumption. }
    assert (E2 : (cps ", { status: " ++ d ++ [32%N; 125%N]) ++ 41%N :: s'
                 = l ++ 41%N :: (cps ": Promise<boolean> {" ++ a ++
                     cps "const " ++ v1 ++ cps " = getFirebaseFirestore();"
                     ++ b ++ cps "if (!" ++ v2 ++ cps ") {" ++ w1)
                   ++ response_head ++ q0 :: msg0 ++ q0 :: r0).
    { transitivity (cps ", { status: " ++ d ++ response_tail ++ s').
      - rewrite <- !app_assoc. reflexivity.
      - rewrite El. unfold block_body. rewrite <- !app_assoc. reflexivity. }
    apply (run_unique (none_of (cps ")"))) in E2 as (<- & _ & _);
      try reflexivity; try assumption.
    + rewrite Ex. unfold response_stmt. rewrite !length_app. cbn [length].
      rewrite !length_app. cbn [length]. rewrite !length_app. cbn [length].
      change (length response_mid) with 14.
      change (length response_tail) with 3.
      change (length (cps ", { status: ")) with 12. lia.
    + apply all_app. split; [apply all_none_of_lit; reflexivity|].
      apply all_app. split; [|apply all_none_of_lit; reflexivity].
      unfold all in *. rewrite Forall_forall in *. auto using digit_not_paren.
  - exfalso.
    assert (B2 : all (none_of (cps "}")) p2) by (eapply tails_all; eassumption).
    destruct (response_before_response [] p2 _ _ _ _ _ _ _
                Hne B2 Hq0 Hmsg Hm0 Hb0 E) as (l & Ex & _).
    symmetry in Ex. apply app_eq_nil in Ex as [_ Ex]. discriminate.
Qed.

Lemma app_prefix_split (a b m s' : text) :
  a ++ b = m ++ s' -> length m <= length a ->
  exists a2, a = m ++ a2 /\ s' = a2 ++ b.
Proof.
  intros E L. destruct (app_eq_app_cases _ _ _ _ E) as [(l & E1 & E2)|(c & l & E1 & E2)].
  - destruct l as [|c l].
    + exists []. rewrite app_nil_r in E1. rewrite E1, E2, app_nil_r. auto.
    + rewrite E1, length_app in L. simpl in L. lia.
  - exists (c :: l). auto.
Qed.

Lemma re_search_tail (r : regex) (s p2 : text) :
  re_search r s = false -> In p2 (tails s) -> re_match r p2 = None.
Proof.
  induction s as [|c s IH]; intros H Hp.
  - destruct Hp as [<-|[]]. simpl in H.
    destruct (re_match r []); [discriminate | reflexivity].
  - apply re_search_false_cons in H as [H1 H2].
    destruct Hp as [<-|Hp]; auto.
Qed.

Lemma tails_inv (x s : text) : In x (tails s) -> exists y, s = y ++ x.
Proof.
  induction s as [|c s IH]; simpl; intros H.
  - destruct H as [<-|[]]. exists []. reflexivity.
  - destruct H as [<-|H]; [exists []; reflexivity|].
    destruct (IH H) as (y & ->). exists (c :: y). reflexivity.
Qed.

(** When the response pattern finds nothing in the parameter list with its
    closing parenthesis, no response statement begins before the block's
    own. *)
Lemma no_response_in_block_prefix
    (ps a v1 b v2 w1 body d0 semi w2 p2 r0 msg0 : text) (q0 : char) :
  admin_parts ps a v1 b v2 w1 body d0 semi w2 ->
  re_search response_pattern (ps ++ cps ")") = false ->
  In q0 quote_chars -> msg0 <> [] -> all (none_of (cps "}")) msg0 ->
  In p2 (tails (block_prefix ps a v1 b v2 w1)) -> p2 <> [] ->
  re_match response_pattern (p2 ++ response_head ++ q0 :: msg0 ++ q0 :: r0)
  = None.
Proof.
  intros P Q Hq0 Hm0 Hb0 Hp Hne.
  destruct (re_match response_pattern _) as [[n g']|] eqn:E; auto.
  exfalso. apply re_match_sound in E as (m & s' & Hs & _ & M).
  apply response_match_inv in M
    as (q & msg & d & Hq & Hmne & Hmsg & Hdne & Hd & -> & _).
  destruct (response_in_block_prefix _ _ _ _ _ _ _ _ _ _ _ _ _ _ _ _ _ _
              P Hq0 Hm0 Hb0 Hp Hne Hmsg Hd Hs) as (x & l & Hx & -> & Ex & L).
  assert (Hs' : (x ++ [41%N]) ++
                (cps ": Promise<boolean> {" ++ a ++ cps "const " ++ v1 ++
                 cps " = getFirebaseFirestore();" ++ b ++ cps "if (!" ++ v2 ++
                 cps ") {" ++ w1) ++ response_head ++ q0 :: msg0 ++ q0 :: r0
                = response_stmt q msg d ++ s').
  { rewrite <- Hs. unfold block_body. rewrite <- !app_assoc. reflexivity. }
  apply app_prefix_split in Hs' as (a2 & Ea & _);
    [|rewrite length_app, L; cbn [length]; lia].
  assert (a2 = []) as ->.
  { apply (f_equal (@length char)) in Ea. rewrite !length_app, L in Ea.
    cbn [length] in Ea. destruct a2; [reflexivity | cbn [length] in Ea; lia]. }
  rewrite app_nil_r in Ea.
  apply tails_app in Hx as [(h & Hh & Hhne & ->)|Hx].
  - destruct h as [|c h]; [congruence|].
    destruct (cons_inj _ _ _ _ Ex) as [-> _].
    clear - Hh. simpl in Hh.
    repeat (destruct Hh as [Hh|Hh]; [discriminate Hh|]). contradiction.
  - destruct (tails_inv _ _ Hx) as (y & Ey).
    assert (T : In (x ++ [41%N]) (tails (ps ++ cps ")"))).
    { apply (tails_split _ y). rewrite Ey, <- app_assoc. reflexivity. }
    pose proof (re_search_tail _ _ _ Q T) as N.
    rewrite Ea in N.
    pose proof (response_match_at q msg d [] Hq Hmne Hmsg Hdne Hd) as Y.
    rewrite app_nil_r in Y. congruence.
Qed.

Lemma replacer_access_block (ps a v1 b v2 w1 w2 : text) (g : groups) :
  admin_parts ps a v1 b v2 w1 forbidden_body forbidden_status semicolon w2 ->
  re_search response_pattern (ps ++ cps ")") = false ->
  replacer (access_block ps a v1 b v2 w1 w2) g = fixed_block ps a v1 b v2 w1 w2.
Proof.
  intros P Q. unfold replacer.
  rewrite access_block_stmt, fixed_block_stmt.
  rewrite re_sub_skip_prefix.
  - f_equal.
    rewrite (re_sub_match _ _ response_nonnull _ _ [(2, cps "Forbidden"); (1, [39%N])]).
    + unfold template. rewrite expand_throw. f_equal.
      apply re_sub_no_match, response_search_no_r.
      intros H. simpl in H. destruct H as [H|H]; [discriminate|].
      apply in_app_or in H as [H|H].
      * destruct P. unfold all in w2_space0. rewrite Forall_forall in w2_space0.
        apply w2_space0 in H. discriminate.
      * simpl in H. intuition discriminate.
    + apply response_match_at; try discriminate.
      * left. reflexivity.
      * apply all_none_of_lit. reflexivity.
      * repeat constructor.
  - intros p2 Hp Hne. rewrite response_stmt_head.
    eapply no_response_in_block_prefix; try eassumption.
    + left. reflexivity.
    + discriminate.
    + apply all_none_of_lit. reflexivity.
Qed.

(** C4 (amended): when the example block is the only place where a
    pattern of the pipeline matches -- no access-check match starts before
    it or lies after it, no response statement lies in its parameter
    list, and no callback rule matches the rewritten text -- the pipeline
    replaces the forbidden-response statement by
    [throw new Error('Forbidden');] and leaves every other character of the
    text unchanged.  The parameter list and the body of the function may
    hold quoted strings. *)
Theorem access_block_rewritten
    (ps a v1 b v2 w1 w2 pre post : text)
    (Hparts : admin_parts ps a v1 b v2 w1
                forbidden_body forbidden_status semicolon w2)
    (Hparams : re_search response_pattern (ps ++ cps ")") = false)
    (Hpre : forall p2, In p2 (tails pre) -> p2 <> [] ->
              re_match admin_pattern
                (p2 ++ access_block ps a v1 b v2 w1 w2 ++ post) = None)
    (Hpost : re_search admin_pattern post = false)
    (Hcb : Forall (fun m => unmatched m
                     (pre ++ fixed_block ps a v1 b v2 w1 w2 ++ post))
                  callback_methods) :
  fix_check_admin_access (pre ++ access_block ps a v1 b v2 w1 w2 ++ post)
  = pre ++ fixed_block ps a v1 b v2 w1 w2 ++ post /\
  pipeline (pre ++ access_block ps a v1 b v2 w1 w2 ++ post)
  = pre ++ fixed_block ps a v1 b v2 w1 w2 ++ post.
Proof.
  assert (E : fix_check_admin_access
                (pre ++ access_block ps a v1 b v2 w1 w2 ++ post)
              = pre ++ fixed_block ps a v1 b v2 w1 w2 ++ post).
  { unfold fix_check_admin_access.
    rewrite re_sub_skip_prefix by exact Hpre. f_equal.
    destruct (admin_match_at _ _ _ _ _ _ _ _ _ _ post Hparts) as (g & M).
    rewrite <- access_block_match in M.
    rewrite (re_sub_match _ _ admin_nonnull _ _ g M).
    rewrite replacer_access_block by assumption. f_equal.
    apply re_sub_no_match. exact Hpost. }
  split; [exact E|].
  unfold pipeline. rewrite E.
  apply (annotate_all_id callback_methods). exact Hcb.
Qed.

(** ** File discovery *)

Lemma is_infix_spec (p s : text) :
  is_infix p s = true <-> exists a b, s = a ++ p ++ b.
Proof.
  induction s as [|c s IH]; simpl.
  - unfold starts_with. rewrite orb_false_r.
    destruct (strip_prefix p []) as [r|] eqn:E.
    + apply strip_prefix_spec in E. split; auto. intros _.
      exists [], r. exact E.
    + split; [discriminate|]. intros (a & b & E').
      symmetry in E'. apply app_eq_nil in E' as [-> E'].
      apply app_eq_nil in E' as [-> ->]. discriminate.
  - rewrite orb_true_iff, IH. unfold starts_with.
    destruct (strip_prefix p (c :: s)) as [r|] eqn:E.
    + apply strip_prefix_spec in E. split; auto. intros _.
      exists [], r. exact E.
    + split.
      * intros [H|(a & b & ->)]; [discriminate|]. exists (c :: a), b. reflexivity.
      * intros (a & b & E'). right. destruct a as [|d a].
        -- simpl in E'. apply strip_prefix_spec in E'. congruence.
        -- injection E' as _ ->. exists a, b. reflexivity.
Qed.

Lemma path_str_segment (seg : text) (p : path) :
  In seg p -> exists a b, path_str p = a ++ seg ++ b.
Proof.
  unfold path_str. induction p as [|s p IH]; intros H; [contradiction|].
  destruct H as [->|H].
  - destruct p as [|s' p]; simpl.
    + exists [], []. rewrite app_nil_r. reflexivity.
    + exists [], (cps "/" ++ join (cps "/") (s' :: p)). reflexivity.
  - destruct (IH H) as (a & b & E). destruct p as [|s' p]; [contradiction|].
    change (join (cps "/") (s :: s' :: p))
      with (s ++ cps "/" ++ join (cps "/") (s' :: p)).
    rewrite E. exists (s ++ cps "/" ++ a), b.
    rewrite <- !app_assoc. reflexivity.
Qed.

(** A path with a [node_modules] segment is never selected. *)
Lemma node_modules_not_selected (p : path) :
  In (cps "node_modules") p -> selected p = false.
Proof.
  intros H. unfold selected.
  assert (X : is_infix (cps "node_modules") (path_str p) = true)
    by (apply is_infix_spec, path_str_segment, H).
  rewrite X. apply andb_false_r.
Qed.

Lemma path_eqb_eq (p q : path) : path_eqb p q = true <-> p = q.
Proof.
  revert q. induction p as [|a p IH]; intros [|b q]; simpl;
    try (split; [discriminate | congruence]); try tauto.
  rewrite andb_true_iff, text_eqb_eq, IH.
  split; [intros [-> ->]; reflexivity | intros H; inversion H; auto].
Qed.

Lemma store_other (p q : path) (f : file) (fs : files) :
  q <> p -> store p f fs q = fs q.
Proof.
  intros H. unfold store. destruct (path_eqb q p) eqn:E; auto.
  apply path_eqb_eq in E. contradiction.
Qed.

(** [process_file] touches no other file. *)
Lemma process_file_frame (p q : path) (w : world) :
  q <> p -> disk (fst (process_file p w)) q = disk w q.
Proof.
  intros H. unfold process_file, process_file_in.
  destruct (read_text (disk w) p) as [e|t]; [reflexivity|]. cbv zeta.
  destruct (negb _); [|reflexivity].
  unfold write_text.
  destruct (snd _); [|reflexivity].
  destruct (encode _); simpl; apply store_other; exact H.
Qed.

(** [main] leaves every file it did not discover as it was. *)
Lemma main_loop_frame (ts_files : list path) (q : path) :
  ~ In q ts_files ->
  forall w n, disk (fst (main_loop ts_files w n)) q = disk w q.
Proof.
  induction ts_files as [|p ps IH]; intros H w n; [reflexivity|].
  assert (Hq : q <> p) by (intros ->; apply H; left; reflexivity).
  assert (Hps : ~ In q ps) by (intros X; apply H; right; exact X).
  cbn [main_loop].
  pose proof (process_file_frame p q w Hq) as F.
  destruct (process_file p w) as [w' [|]]; simpl in F;
    rewrite IH by exact Hps; [simpl|]; exact F.
Qed.

(** C8: the filter of [main] tests substrings of the path, so it takes a
    [.ts] file that lies in no [src] directory when its path merely
    contains the letters; here [app/lib/srcmap.ts] is discovered although
    no segment of the path is [src]. *)
Theorem discover_takes_file_outside_src :
  discover [srcmap_ts] = [srcmap_ts] /\
  has_segment (cps "src") srcmap_ts = false.
Proof. split; reflexivity. Qed.

(** * Further properties of the transformations *)

(** ** Texts a rule cannot match *)

Lemma is_infix_suffix (l a s : text) :
  is_infix l (a ++ s) = false -> is_infix l s = false.
Proof.
  intros H. destruct (is_infix l s) eqn:E; auto.
  apply is_infix_spec in E as (x & y & ->).
  assert (X : is_infix l (a ++ x ++ l ++ y) = true)
    by (apply is_infix_spec; exists (a ++ x), y; rewrite <- app_assoc; reflexivity).
  congruence.
Qed.

(** A pattern whose every match holds the text [l] matches nowhere in a
    text without [l]. *)
Lemma search_needs_infix (r : regex) (l t : text) :
  (forall s n g, re_match r s = Some (n, g) -> is_infix l s = true) ->
  is_infix l t = false -> re_search r t = false.
Proof.
  intros H. induction t as [|c t IH]; intros Ht.
  - simpl. destruct (re_match r []) as [[n g]|] eqn:E; auto.
    apply H in E. congruence.
  - cbn [re_search]. destruct (re_match r (c :: t)) as [[n g]|] eqn:E.
    + apply H in E. congruence.
    + apply IH. apply (is_infix_suffix l [c]). exact Ht.
Qed.

Lemma admin_match_header (s : text) (n : nat) (g : groups) :
  re_match admin_pattern s = Some (n, g) ->
  is_infix (cps "async function checkAdminAccess(") s = true.
Proof.
  intros E. apply re_match_sound in E as (m & s' & -> & _ & M).
  apply admin_match_inv in M
    as (ps & a & v1 & b & v2 & w1 & body & d & semi & w2 & _ & ->).
  apply is_infix_spec. exists []. unfold admin_match.
  rewrite <- !app_assoc. eexists. reflexivity.
Qed.

Lemma rewrites_needs_response (t u : text) :
  rewrites t u -> is_infix response_head t = false -> u = t.
Proof.
  induction 1 as [|c t u _ IH|q msg d t u _ _ _ _]; intros H.
  - reflexivity.
  - f_equal. apply IH. apply (is_infix_suffix _ [c]). exact H.
  - exfalso. rewrite response_stmt_head in H.
    assert (X : is_infix response_head
                  (response_head ++ q :: msg ++ q :: response_mid ++ d
                                 ++ response_tail ++ t) = true)
      by (apply is_infix_spec; exists []; eexists; reflexivity).
    congruence.
Qed.

(** X1: [fix_check_admin_access] returns its input whenever the text lacks
    the function header [async function checkAdminAccess(] or lacks the
    beginning [return NextResponse.json({ error: ] of a response
    statement. *)
Theorem check_admin_access_needs_both (content : text)
    (Habsent : is_infix (cps "async function checkAdminAccess(") content = false
               \/ is_infix response_head content = false) :
  fix_check_admin_access content = content.
Proof.
  destruct Habsent as [H|H].
  - unfold fix_check_admin_access. apply re_sub_no_match.
    apply (search_needs_infix _ _ _ admin_match_header H).
  - apply rewrites_needs_response; [apply check_admin_access_rewrites | exact H].
Qed.

Lemma callback_match_arrow (m s : text) (n : nat) (g : groups) :
  re_match (callback_pattern m) s = Some (n, g) ->
  is_infix (cps ") =>") s = true.
Proof.
  intros E. apply callback_match_iff in E as (w & r & _ & _ & -> & _).
  apply is_infix_spec. exists (cps "." ++ m ++ cps "((" ++ w), r.
  unfold callback_text. rewrite <- !app_assoc. reflexivity.
Qed.

Lemma callback_match_parens (m s : text) (n : nat) (g : groups) :
  re_match (callback_pattern m) s = Some (n, g) ->
  is_infix (cps "((") s = true.
Proof.
  intros E. apply callback_match_iff in E as (w & r & _ & _ & -> & _).
  apply is_infix_spec. exists (cps "." ++ m), (w ++ cps ") =>" ++ r).
  unfold callback_text. rewrite <- !app_assoc. reflexivity.
Qed.

(** X2: [fix_implicit_any_params] returns its input whenever the text
    holds no [((] or no [) =>]. *)
Theorem implicit_any_needs_arrow (content : text)
    (Habsent : is_infix (cps "((") content = false
               \/ is_infix (cps ") =>") content = false) :
  fix_implicit_any_params content = content.
Proof.
  apply (annotate_all_id callback_methods). apply Forall_forall. intros m _.
  destruct Habsent as [H|H].
  - apply (search_needs_infix _ _ _ (callback_match_parens m) H).
  - apply (search_needs_infix _ _ _ (callback_match_arrow m) H).
Qed.

(** ** The callback rules against each other *)

(** X3: a callback that is annotated already is left as it is, and the
    text on either side of it is annotated on its own; no parameter gets a
    second [: any]. *)
Theorem annotated_callback_left_alone (m w a b : text)
    (Hm : In m callback_methods) (Hw : all is_word w) :
  fix_implicit_any_params (a ++ annotated_text m w ++ b)
  = fix_implicit_any_params a ++ annotated_text m w
    ++ fix_implicit_any_params b.
Proof.
  apply (annotate_all_annotated callback_methods); auto using incl_refl.
Qed.

(** Where a rule does not match at a dot, it does not match there after
    another rule has run on the rest. *)
Lemma annotate_head_kept (j k s : text) :
  In j callback_methods -> In k callback_methods ->
  re_match (callback_pattern k) (dot :: s) = None ->
  re_match (callback_pattern k) (dot :: annotate j s) = None.
Proof.
  intros Hj Hk H.
  destruct (re_match (callback_pattern k) (dot :: annotate j s))
    as [[n g]|] eqn:E; auto. exfalso.
  apply callback_match_iff in E as (w & r & Hne & Hw & E & _).
  rewrite callback_text_cons in E. simpl in E. injection E as E.
  apply (annotate_dotfree_prefix j) in E as (r' & ->);
    [|apply callback_tail_dotfree; auto using method_dotfree].
  assert (X : re_match (callback_pattern k) (callback_text k w ++ r')
              = Some (length (callback_text k w), [(1, w)]))
    by (apply callback_match_iff; exists w, r'; auto).
  rewrite callback_text_cons in X. simpl in X. congruence.
Qed.

Lemma annotate_cons_kept (j k : text) (c : char) (s : text) :
  In j callback_methods -> In k callback_methods ->
  re_match (callback_pattern k) (c :: s) = None ->
  annotate k (c :: annotate j s) = c :: annotate k (annotate j s).
Proof.
  intros Hj Hk H. apply annotate_cons.
  destruct (N.eq_dec c dot) as [->|Hc].
  - apply annotate_head_kept; assumption.
  - apply nodot_nomatch. exact Hc.
Qed.

Lemma annotate_callback_other_head (k m0 w r : text) :
  In k callback_methods -> In m0 callback_methods -> k <> m0 ->
  all is_word w ->
  annotate k (callback_text m0 w ++ r) = callback_text m0 w ++ annotate k r.
Proof.
  intros Hk Hm Hne Hw.
  pose proof (annotate_callback_other k m0 w [] r Hk Hm Hne Hw) as X.
  rewrite annotate_nil in X. exact X.
Qed.

Lemma annotate_annotated_head (k m0 w r : text) :
  In k callback_methods -> In m0 callback_methods -> all is_word w ->
  annotate k (annotated_text m0 w ++ r) = annotated_text m0 w ++ annotate k r.
Proof.
  intros Hk Hm Hw.
  pose proof (annotate_annotated k m0 w [] r Hk Hm Hw) as X.
  rewrite annotate_nil in X. exact X.
Qed.

Lemma annotate_commute (j k t : text) :
  In j callback_methods -> In k callback_methods ->
  annotate j (annotate k t) = annotate k (annotate j t).
Proof.
  intros Hj Hk. destruct (text_eq_dec j k) as [->|Hjk]; [reflexivity|].
  induction t as [t IH] using (induction_ltof1 _ (@length char)).
  unfold ltof in IH. destruct t as [|c s].
  - rewrite !annotate_nil. reflexivity.
  - destruct (re_match (callback_pattern j) (c :: s)) as [[n g]|] eqn:Ej.
    + apply callback_match_iff in Ej as (w & r & Hne & Hw & E & _).
      rewrite E. rewrite annotate_match by assumption.
      rewrite (annotate_callback_other_head k j w r) by auto.
      rewrite (annotate_annotated_head k j w) by auto.
      rewrite annotate_match by assumption. f_equal. apply IH.
      rewrite E, length_app, callback_text_cons. simpl. lia.
    + destruct (re_match (callback_pattern k) (c :: s)) as [[n g]|] eqn:Ek.
      * apply callback_match_iff in Ek as (w & r & Hne & Hw & E & _).
        rewrite E. rewrite annotate_match by assumption.
        rewrite (annotate_callback_other_head j k w r) by auto.
        rewrite (annotate_annotated_head j k w) by auto.
        rewrite annotate_match by assumption. f_equal. apply IH.
        rewrite E, length_app, callback_text_cons. simpl. lia.
      * rewrite (annotate_cons j c s Ej), (annotate_cons k c s Ek).
        rewrite annotate_cons_kept, (annotate_cons_kept j k) by assumption.
        f_equal. apply IH. simpl. lia.
Qed.

Lemma annotate_all_swap (ks : list text) (k t : text) :
  incl ks callback_methods -> In k callback_methods ->
  annotate_all ks (annotate k t) = annotate k (annotate_all ks t).
Proof.
  intros Hks Hk. revert t. induction ks as [|j ks IH]; intros t; [reflexivity|].
  rewrite !annotate_all_cons.
  rewrite (annotate_commute j k) by (auto; apply Hks; left; reflexivity).
  apply IH. intros x Hx. apply Hks. right. exact Hx.
Qed.

Lemma annotate_all_permutation (ks ks' : list text) :
  Permutation ks ks' -> incl ks callback_methods ->
  forall t, annotate_all ks t = annotate_all ks' t.
Proof.
  induction 1 as [|j ks ks' _ IH|i j ks|ks ks1 ks2 P1 IH1 P2 IH2];
    intros Hks t.
  - reflexivity.
  - rewrite !annotate_all_cons. apply IH.
    intros x Hx. apply Hks. right. exact Hx.
  - rewrite !annotate_all_cons. f_equal.
    apply annotate_commute; apply Hks; simpl; auto.
  - rewrite IH1 by exact Hks. apply IH2.
    intros x Hx. apply Hks. apply (Permutation_in x (Permutation_sym P1)). exact Hx.
Qed.

(** X4: the six rules commute: applying them in any other order gives the
    text [fix_implicit_any_params] gives. *)
Theorem implicit_any_order_irrelevant (ms : list text) (content : text)
    (Hperm : Permutation callback_methods ms) :
  fold_left (fun c m => annotate m c) ms content
  = fix_implicit_any_params content.
Proof.
  symmetry. apply (annotate_all_permutation callback_methods ms Hperm).
  apply incl_refl.
Qed.

(** ** The rewrite of a block with any message *)

Lemma response_block_match (ps a v1 b v2 w1 : text) (q : char)
    (msg d semi w2 : text) :
  response_block ps a v1 b v2 w1 q msg d semi w2
  = admin_match ps a v1 b v2 w1 (error_body q msg) d semi w2.
Proof.
  unfold response_block, block_prefix, admin_match, error_body, response_stmt.
  repeat (first [rewrite <- app_assoc | progress (cbn [app])]). reflexivity.
Qed.

Lemma replacer_response_block (ps a v1 b v2 w1 : text) (q : char)
    (msg d semi w2 : text) (g : groups) :
  admin_parts ps a v1 b v2 w1 (error_body q msg) d semi w2 ->
  In q quote_chars -> msg <> [] -> all (none_of quote_chars) msg ->
  all (none_of quote_chars) (ps ++ a ++ b) ->
  replacer (response_block ps a v1 b v2 w1 q msg d semi w2) g
  = thrown_block ps a v1 b v2 w1 q msg semi w2.
Proof.
  intros P Hq Hne Hmsg Q. unfold replacer, response_block, thrown_block.
  rewrite re_sub_skip_prefix.
  - f_equal.
    rewrite (re_sub_match _ _ response_nonnull _ _ [(2, msg); (1, [q])]).
    + unfold template. rewrite expand_throw. f_equal.
      apply re_sub_no_match, response_search_no_r.
      intros H. apply in_app_or in H as [H|H].
      * destruct (semi_opt _ _ _ _ _ _ _ _ _ _ P) as [-> | ->];
          simpl in H; intuition discriminate.
      * apply in_app_or in H as [H|H].
        -- pose proof (w2_space _ _ _ _ _ _ _ _ _ _ P) as W.
           unfold all in W. rewrite Forall_forall in W.
           apply W in H. discriminate.
        -- simpl in H. intuition discriminate.
    + apply response_match_at; auto; apply P.
  - intros p2 Hp Hp2.
    destruct (re_match response_pattern _) as [[n g']|] eqn:E; auto.
    exfalso. apply re_match_sound in E as (m & s' & Hs & _ & M).
    apply response_match_inv in M as (q' & msg' & d' & Hq' & _ & _ & _ & _ & -> & _).
    rewrite !response_stmt_head in Hs.
    revert Hs. apply no_response_before; auto.
    eapply tails_all; [|exact Hp].
    eapply block_prefix_no_quote; eassumption.
Qed.

(** X5: a block of the expected shape at the head of the text is rewritten
    whatever the quote kind, the message and the status are, with or
    without the semicolon: the response statement becomes
    [throw new Error(q msg q)], the rest of the block is kept, and the text
    after the block is processed on its own.  The parameter list and the
    body before the statement must hold no quote. *)
Theorem response_block_rewritten
    (ps a v1 b v2 w1 : text) (q : char) (msg d semi w2 post : text)
    (Hparts : admin_parts ps a v1 b v2 w1 (error_body q msg) d semi w2)
    (Hq : In q quote_chars)
    (Hne : msg <> [])
    (Hmsg : all (none_of quote_chars) msg)
    (Hquotes : all (none_of quote_chars) (ps ++ a ++ b)) :
  fix_check_admin_access
    (response_block ps a v1 b v2 w1 q msg d semi w2 ++ post)
  = thrown_block ps a v1 b v2 w1 q msg semi w2 ++ fix_check_admin_access post.
Proof.
  unfold fix_check_admin_access.
  destruct (admin_match_at _ _ _ _ _ _ _ _ _ _ post Hparts) as (g & M).
  rewrite <- response_block_match in M.
  rewrite (re_sub_match _ _ admin_nonnull _ _ g M).
  rewrite replacer_response_block by assumption. reflexivity.
Qed.

(** ** The message of a rewritten block *)

Lemma tails_app_r (x m y : text) : In x (tails y) -> In x (tails (m ++ y)).
Proof.
  intros H. induction m as [|c m IH]; [exact H|]. simpl. right. exact IH.
Qed.

(** [re.sub] with the response pattern over a text [pre ++ rest] in which
    no match that begins in [pre] reaches into [rest]: [pre] and [rest]
    are rewritten independently of each other. *)
Lemma response_sub_prefix (k : nat) (pre rest : text) :
  length pre <= k ->
  (forall p2 n g, In p2 (tails pre) -> p2 <> [] ->
     re_match response_pattern (p2 ++ rest) = Some (n, g) -> n <= length p2) ->
  exists u,
    rewrites pre u /\
    re_sub response_pattern (template throw_template) (pre ++ rest)
    = u ++ re_sub response_pattern (template throw_template) rest.
Proof.
  revert pre. induction k as [|k IH]; intros pre Lk H.
  - destruct pre; [|simpl in Lk; lia]. exists []. split; [constructor | reflexivity].
  - destruct pre as [|c pre].
    + exists []. split; [constructor | reflexivity].
    + destruct (re_match response_pattern ((c :: pre) ++ rest))
        as [[n g]|] eqn:E.
      * pose proof (H (c :: pre) n g (or_introl eq_refl) ltac:(discriminate) E) as Ln.
        pose proof E as S.
        apply re_match_sound in S as (m & s' & Hs & -> & M).
        destruct (app_prefix_split _ _ _ _ Hs Ln) as (a2 & Ea & ->).
        apply response_match_inv in M
          as (q & msg & d & Hq & _ & _ & _ & Hd & -> & ->).
        destruct (IH a2) as (u & Ru & Eu).
        { apply (f_equal (@length char)) in Ea. rewrite length_app in Ea.
          assert (0 < length (response_stmt q msg d))
            by (unfold response_stmt, response_head; rewrite length_app;
                simpl; lia).
          simpl in Ea, Lk. lia. }
        { intros p2 n g Hp. apply H. rewrite Ea. apply tails_app_r. exact Hp. }
        exists (throw_stmt q msg ++ u). split.
        -- rewrite Ea. constructor; assumption.
        -- rewrite Ea in E |- *. rewrite <- app_assoc in E |- *.
           rewrite (re_sub_match _ _ response_nonnull _ _ _ E).
           unfold template at 1. rewrite expand_throw, Eu, <- app_assoc.
           reflexivity.
      * destruct (IH pre) as (u & Ru & Eu).
        { simpl in Lk. lia. }
        { intros p2 n g Hp. apply H. simpl. right. exact Hp. }
        exists (c :: u). split; [constructor; exact Ru|].
        simpl. simpl in E. rewrite (re_sub_cons _ _ _ _ E), Eu. reflexivity.
Qed.

Lemma error_body_message (q : char) (msg : text) :
  all (none_of (cps "}")) (error_body q msg) -> all (none_of (cps "}")) msg.
Proof.
  unfold error_body. intros H. apply all_app in H as [_ H].
  inversion H as [|? ? _ H1]; subst. apply all_app in H1 as [H1 _]. exact H1.
Qed.

(** The replacement of a block whose response statement has a quote-free
    message: the statement becomes the throw statement with that message,
    the text after it is kept, and the text before it changes only by
    replacements of the same kind. *)
Lemma replacer_block_message (ps a v1 b v2 w1 : text) (q : char)
    (msg d semi w2 : text) (g : groups) :
  admin_parts ps a v1 b v2 w1 (error_body q msg) d semi w2 ->
  In q quote_chars -> msg <> [] -> all (none_of quote_chars) msg ->
  exists u,
    rewrites (block_prefix ps a v1 b v2 w1) u /\
    replacer (response_block ps a v1 b v2 w1 q msg d semi w2) g
    = u ++ throw_stmt q msg ++ semi ++ w2 ++ cps "}".
Proof.
  intros P Hq Hne Hmsg. unfold replacer, response_block.
  destruct (response_sub_prefix (length (block_prefix ps a v1 b v2 w1))
              (block_prefix ps a v1 b v2 w1)
              (response_stmt q msg d ++ semi ++ w2 ++ cps "}"))
    as (u & Ru & Eu); [lia | |].
  - intros p2 n g' Hp Hp2 E.
    apply re_match_sound in E as (m & s' & Hs & -> & M).
    apply response_match_inv in M
      as (q' & msg' & d' & Hq' & _ & Hmsg' & _ & Hd' & -> & _).
    rewrite response_stmt_head in Hs.
    destruct (response_in_block_prefix _ _ _ _ _ _ _ _ _ _ _ _ _ _ _ _ _ _
                P Hq Hne
                (error_body_message _ _ (body_no_brace _ _ _ _ _ _ _ _ _ _ P))
                Hp Hp2 Hmsg' Hd' Hs) as (x & l & _ & -> & _ & L).
    rewrite L, length_app.
    assert (0 < length (block_body a v1 b v2 w1))
      by (unfold block_body; rewrite length_app; simpl; lia).
    lia.
  - exists u. split; [exact Ru|]. rewrite Eu. f_equal.
    rewrite (re_sub_match _ _ response_nonnull _ _ [(2, msg); (1, [q])]).
    + unfold template. rewrite expand_throw. f_equal.
      apply re_sub_no_match, response_search_no_r.
      intros H. apply in_app_or in H as [H|H].
      * destruct (semi_opt _ _ _ _ _ _ _ _ _ _ P) as [-> | ->];
          simpl in H; intuition discriminate.
      * apply in_app_or in H as [H|H].
        -- pose proof (w2_space _ _ _ _ _ _ _ _ _ _ P) as W.
           unfold all in W. rewrite Forall_forall in W.
           apply W in H. discriminate.
        -- simpl in H. intuition discriminate.
    + apply response_match_at; auto; apply P.
Qed.

(** C9 (amended): every throw statement that [fix_check_admin_access]
    writes replaces a response statement
    [return NextResponse.json({ error: q msg q }, { status: d })] and
    carries the same quote [q] and the same message [msg], and nothing else
    changes; and a matched block whose response statement has that form,
    with a non-empty message that holds neither quote character, is
    rewritten: its statement becomes [throw new Error(q msg q)], what
    follows the statement is kept, and what precedes it changes only by
    replacements of the same kind. *)
Theorem check_admin_access_keeps_message :
  (forall content : text, rewrites content (fix_check_admin_access content)) /\
  (forall (ps a v1 b v2 w1 : text) (q : char) (msg d semi w2 pre post : text),
     admin_parts ps a v1 b v2 w1 (error_body q msg) d semi w2 ->
     In q quote_chars -> msg <> [] -> all (none_of quote_chars) msg ->
     (forall p2, In p2 (tails pre) -> p2 <> [] ->
        re_match admin_pattern
          (p2 ++ response_block ps a v1 b v2 w1 q msg d semi w2 ++ post)
        = None) ->
     exists u,
       rewrites (block_prefix ps a v1 b v2 w1) u /\
       fix_check_admin_access
         (pre ++ response_block ps a v1 b v2 w1 q msg d semi w2 ++ post)
       = pre ++ (u ++ throw_stmt q msg ++ semi ++ w2 ++ cps "}")
         ++ fix_check_admin_access post).
Proof.
  split; [exact check_admin_access_rewrites|].
  intros ps a v1 b v2 w1 q msg d semi w2 pre post P Hq Hne Hmsg Hpre.
  unfold fix_check_admin_access.
  rewrite re_sub_skip_prefix by exact Hpre.
  destruct (admin_match_at _ _ _ _ _ _ _ _ _ _ post P) as (g & M).
  rewrite <- response_block_match in M.
  rewrite (re_sub_match _ _ admin_nonnull _ _ g M).
  destruct (replacer_block_message _ _ _ _ _ _ _ _ _ _ _ g P Hq Hne Hmsg)
    as (u & Ru & Eu).
  exists u. split; [exact Ru|]. rewrite Eu. reflexivity.
Qed.

(** ** Lengths under the access-check rewrite *)

Lemma rewrites_length (t u : text) :
  rewrites t u ->
  length u <= length t /\ (u = t \/ length u + 34 <= length t).
Proof.
  induction 1 as [|c t u _ [IH1 IH2]|q msg d t u _ _ _ [IH1 IH2]].
  - auto.
  - simpl. split; [lia|]. destruct IH2 as [->|IH2]; [left; reflexivity | right; lia].
  - assert (L : length (throw_stmt q msg ++ u) + 34
                <= length (response_stmt q msg d ++ t)).
    { unfold throw_stmt, response_stmt, response_head, response_mid,
        response_tail.
      repeat (rewrite ?length_app; cbn [length]). simpl. lia. }
    split; [lia | right; exact L].
Qed.

(** X6: [fix_check_admin_access] never makes a text longer, and a text it
    changes gets shorter by at least 34 characters. *)
Theorem check_admin_access_shortens (content : text) :
  length (fix_check_admin_access content) <= length content /\
  (fix_check_admin_access content <> content ->
   length (fix_check_admin_access content) + 34 <= length content).
Proof.
  destruct (rewrites_length _ _ (check_admin_access_rewrites content))
    as [H1 [H2|H2]]; split; auto.
  intros N. contradiction.
Qed.

(** ** What [process_file] does to the world *)

Lemma read_text_store (p : path) (f : file) (fs : files) :
  read_text (store p f fs) p
  = if readable f then match decode (data f) with
                       | Some t => inr t
                       | None => inl UnicodeDecodeError
                       end
    else inl OpenForReadError.
Proof. unfold read_text, store. rewrite path_eqb_refl. reflexivity. Qed.

Lemma read_text_file (fs : files) (p : path) (t : text) :
  read_text fs p = inr t ->
  exists f, fs p = Some f /\ readable f = true /\ decode (data f) = Some t.
Proof.
  unfold read_text. destruct (fs p) as [f|]; [|discriminate].
  destruct (readable f) eqn:Er; [|discriminate].
  destruct (decode (data f)) as [t'|] eqn:Ed; [|discriminate].
  intros E. injection E as <-. exists f. auto.
Qed.

Lemma process_file_true_world (p : path) (w w' : world) :
  process_file p w = (w', true) ->
  exists t b f,
    read_text (disk w) p = inr t /\ pipeline t <> t /\
    disk w p = Some f /\ encode (pipeline t) = Some b /\
    w' = mk_world (store p (mk_file b (readable f) true) (disk w)) (stdout w).
Proof.
  intros Htrue.
  destruct (read_text (disk w) p) as [e|t] eqn:Hr.
  - rewrite (process_file_read_error _ _ _ Hr) in Htrue. discriminate.
  - rewrite (pipeline_process_file _ _ _ Hr) in Htrue.
    destruct (text_eqb (pipeline t) t) eqn:Et; [discriminate|].
    apply text_eqb_neq in Et.
    destruct (read_text_file _ _ _ Hr) as (f & Hf & _ & _).
    unfold write_text in Htrue. rewrite Hf in Htrue. simpl in Htrue.
    destruct (writable f); [|discriminate].
    destruct (encode (pipeline t)) as [b|] eqn:Eb; [|discriminate].
    injection Htrue as <-. exists t, b, f. auto.
Qed.

(** X7: when [process_file] returns [True], the file was read, the
    pipeline changed its text, and the world differs only in that the file
    now holds the encoded new text; nothing was printed. *)
Theorem process_file_true_inv (p : path) (w w' : world)
    (Htrue : process_file p w = (w', true)) :
  exists t b f,
    read_text (disk w) p = inr t /\ pipeline t <> t /\
    disk w p = Some f /\ encode (pipeline t) = Some b /\
    w' = mk_world (store p (mk_file b (readable f) true) (disk w)) (stdout w).
Proof. apply process_file_true_world. exact Htrue. Qed.

(** X8: [process_file] leaves every other file as it was. *)
Theorem process_file_other_files (p q : path) (w : world)
    (Hother : q <> p) :
  disk (fst (process_file p w)) q = disk w q.
Proof. apply process_file_frame. exact Hother. Qed.

(** X9: after [process_file] has rewritten a file, a second call on the
    same file changes nothing and returns [False], provided the bytes
    written decode to the text written and the first pass has left no
    access-check match in it. *)
Theorem process_file_second_run (p : path) (w w1 : world) (t : text)
    (Hread : read_text (disk w) p = inr t)
    (Hfirst : process_file p w = (w1, true))
    (Hcodec : forall b, encode (pipeline t) = Some b ->
                        decode b = Some (pipeline t))
    (Hnorm : re_search admin_pattern (pipeline t) = false) :
  process_file p w1 = (w1, false).
Proof.
  destruct (process_file_true_world _ _ _ Hfirst)
    as (t' & b & f & Hr & Hne & Hf & Hb & ->).
  rewrite Hread in Hr. injection Hr as <-.
  destruct (read_text_file _ _ _ Hread) as (f' & Hf' & Hrd & _).
  rewrite Hf in Hf'. injection Hf' as <-.
  assert (R : read_text (disk (mk_world (store p (mk_file b (readable f) true)
                                               (disk w)) (stdout w))) p
              = inr (pipeline t)).
  { cbn [disk]. rewrite read_text_store. cbn [readable data].
    rewrite Hrd, (Hcodec b Hb). reflexivity. }
  rewrite (pipeline_process_file _ _ _ R).
  assert (I : pipeline (pipeline t) = pipeline t).
  { unfold pipeline at 1. unfold fix_check_admin_access.
    rewrite (re_sub_no_match _ _ _ Hnorm).
    unfold pipeline. apply implicit_any_idempotent. }
  rewrite I, text_eqb_refl. reflexivity.
Qed.

(** ** What [main] prints and touches *)

Lemma count_fixed_app (a b : list line) :
  count_fixed (a ++ b) = count_fixed a + count_fixed b.
Proof. unfold count_fixed. rewrite filter_app, length_app. reflexivity. Qed.

Lemma process_file_prints (p : path) (w : world) :
  exists l, stdout (fst (process_file p w)) = stdout w ++ l /\
            count_fixed l = 0 /\
            (if snd (process_file p w) then l = [] else length l <= 1).
Proof.
  destruct (read_text (disk w) p) as [e|t] eqn:Hr.
  - rewrite (process_file_read_error _ _ _ Hr).
    exists [ErrorProcessing p e]. simpl. auto.
  - rewrite (pipeline_process_file _ _ _ Hr).
    destruct (text_eqb (pipeline t) t).
    + exists []. simpl. rewrite app_nil_r. auto.
    + destruct (write_text (disk w) p (pipeline t)) as [fs [e|]].
      * exists [ErrorProcessing p e]. simpl. auto.
      * exists []. simpl. rewrite app_nil_r. auto.
Qed.

Lemma main_loop_prints (ts_files : list path) :
  forall (w : world) (n : nat),
  exists l, stdout (fst (main_loop ts_files w n)) = stdout w ++ l /\
            snd (main_loop ts_files w n) = n + count_fixed l /\
            length l <= length ts_files.
Proof.
  induction ts_files as [|p ps IH]; intros w n.
  - exists []. simpl. rewrite app_nil_r. auto.
  - cbn [main_loop].
    destruct (process_file_prints p w) as (l1 & E1 & C1 & L1).
    destruct (process_file p w) as [w1 [|]]; cbn [fst snd] in *.
    + subst l1. rewrite app_nil_r in E1.
      destruct (IH (print (Fixed p) w1) (S n)) as (l & E & C & L).
      exists (Fixed p :: l). rewrite E, C. cbn [print stdout].
      rewrite E1, <- app_assoc. simpl.
      change (Fixed p :: l) with ([Fixed p] ++ l).
      rewrite count_fixed_app. simpl. split; [reflexivity|]. split; lia.
    + destruct (IH w1 n) as (l & E & C & L).
      exists (l1 ++ l). rewrite E, C, E1, <- app_assoc, count_fixed_app, C1.
      rewrite length_app. simpl. split; [reflexivity|]. split; lia.
Qed.

Lemma count_fixed_le (l : list line) : count_fixed l <= length l.
Proof. unfold count_fixed. apply filter_length_le. Qed.

(** ** The runs on a standard output that can refuse a line *)

(** A call of [process_file] that returns gives what it gives when every
    [print] succeeds; one that is left by an exception has printed
    nothing. *)
Lemma process_file_on_total (accepts : line -> bool) (p : path) (w : world) :
  match process_file_on accepts p w with
  | returns r => r = process_file p w
  | raises w' l => accepts l = false /\ stdout w' = stdout w
  end.
Proof.
  assert (H : forall e w0, stdout w0 = stdout w ->
            match handler accepts p e w0 with
            | returns r => r = (print (ErrorProcessing p e) w0, false)
            | raises w' l => accepts l = false /\ stdout w' = stdout w
            end).
  { intros e w0 S. unfold handler, try_print.
    destruct (accepts (ErrorProcessing p e)) eqn:A; auto. }
  destruct (read_text (disk w) p) as [e|t] eqn:Hr.
  - rewrite (process_file_on_read_error _ _ _ _ Hr),
      (process_file_read_error _ _ _ Hr). apply H. reflexivity.
  - rewrite (process_file_on_unfold _ _ _ _ Hr), (pipeline_process_file _ _ _ Hr).
    destruct (text_eqb (pipeline t) t); [reflexivity|].
    destruct (write_text (disk w) p (pipeline t)) as [fs [e|]];
      [apply H|]; reflexivity.
Qed.

Lemma main_loop_on_total (accepts : line -> bool) (ts_files : list path) :
  forall (w : world) (n : nat),
  match main_loop_on accepts ts_files w n with
  | returns r => r = main_loop ts_files w n
  | raises w' l0 =>
      accepts l0 = false /\
      exists l, stdout w' = stdout w ++ l /\ length l < length ts_files
  end.
Proof.
  induction ts_files as [|p ps IH]; intros w n; [reflexivity|].
  cbn [main_loop_on main_loop].
  pose proof (process_file_on_total accepts p w) as T.
  destruct (process_file_prints p w) as (l1 & E1 & _ & L1).
  destruct (process_file_on accepts p w) as [[w1 b]|w1 l0].
  - rewrite <- T in E1, L1 |- *. cbn [fst snd] in E1, L1. destruct b.
    + subst l1. rewrite app_nil_r in E1. unfold try_print.
      destruct (accepts (Fixed p)) eqn:A.
      * specialize (IH (print (Fixed p) w1) (S n)).
        destruct (main_loop_on accepts ps (print (Fixed p) w1) (S n))
          as [r|w' l0]; [exact IH|].
        destruct IH as (A0 & l & E & L). split; [exact A0|].
        exists (Fixed p :: l). cbn [print stdout] in E.
        rewrite E, E1, <- app_assoc. simpl. split; [reflexivity | lia].
      * split; [exact A|]. exists []. rewrite app_nil_r. simpl.
        split; [exact E1 | lia].
    + specialize (IH w1 n).
      destruct (main_loop_on accepts ps w1 n) as [r|w' l0]; [exact IH|].
      destruct IH as (A0 & l & E & L). split; [exact A0|].
      exists (l1 ++ l). rewrite E, E1, <- app_assoc, length_app. simpl.
      split; [reflexivity | lia].
  - destruct T as [A S]. split; [exact A|]. exists [].
    rewrite app_nil_r. simpl. split; [exact S | lia].
Qed.

(** X18: on a standard output that accepts every line, [main] returns,
    and the world it leaves is the one of the run in which every [print]
    succeeds. *)
Theorem main_on_accepting (accepts : line -> bool) (tree : list path) (w : world)
    (Haccepts : forall l, accepts l = true) :
  main_on accepts tree w = returns (main tree w).
Proof.
  rename Haccepts into A. unfold main_on, main.
  pose proof (main_loop_on_total accepts (discover tree) w 0) as T.
  destruct (main_loop_on accepts (discover tree) w 0) as [[w' k]|w' l0].
  - rewrite <- T. unfold try_print. rewrite A. reflexivity.
  - destruct T as [T _]. rewrite A in T. discriminate.
Qed.

(** X10: when [main] returns, it has printed at most one line per
    discovered file and then the summary, which gives the number of
    discovered files and, as the number of modified files, exactly the
    number of [Fixed:] lines printed before it, at most the number of
    files; the world is the one of the run in which every [print]
    succeeds.  When a [print] raises, [main] stops at the refused line,
    having printed at most one line per discovered file. *)
Theorem main_summary_counts (accepts : line -> bool)
    (tree : list path) (w : world) :
  match main_on accepts tree w with
  | returns w' =>
      w' = main tree w /\
      exists l,
        stdout w'
        = stdout w ++ l ++ [Summary (length (discover tree)) (count_fixed l)] /\
        length l <= length (discover tree) /\
        count_fixed l <= length (discover tree)
  | raises w' l0 =>
      accepts l0 = false /\
      exists l,
        stdout w' = stdout w ++ l /\
        length l <= length (discover tree)
  end.
Proof.
  unfold main_on, main.
  pose proof (main_loop_on_total accepts (discover tree) w 0) as T.
  destruct (main_loop_prints (discover tree) w 0) as (l & E & C & L).
  destruct (main_loop_on accepts (discover tree) w 0) as [[w' k]|w' l0].
  - rewrite <- T in E, C |- *. cbn [fst snd] in E, C. unfold try_print.
    destruct (accepts (Summary (length (discover tree)) k)) eqn:A.
    + split; [reflexivity|]. exists l. cbn [print stdout].
      rewrite E, C, <- app_assoc. simpl.
      split; [reflexivity|]. split; [exact L|].
      pose proof (count_fixed_le l). lia.
    + split; [exact A|]. exists l. split; [exact E | exact L].
  - destruct T as (A & l' & E' & L'). split; [exact A|]. exists l'.
    split; [exact E' | lia].
Qed.

Lemma discover_In (tree : list path) (p : path) :
  In p (discover tree) -> In p tree /\ selected p = true.
Proof.
  unfold discover, rglob. rewrite filter_In, in_app_iff, !filter_In. tauto.
Qed.

Lemma main_disk (tree : list path) (w : world) :
  disk (main tree w) = disk (fst (main_loop (discover tree) w 0)).
Proof.
  unfold main. destruct (main_loop (discover tree) w 0). reflexivity.
Qed.

(** X11: [main] changes no file outside the list it discovered. *)
Theorem main_changes_discovered_only (tree : list path) (w : world) (q : path)
    (Hout : ~ In q (discover tree)) :
  disk (main tree w) q = disk w q.
Proof. rewrite main_disk. apply main_loop_frame. exact Hout. Qed.

(** X12: a path with a [node_modules] segment is never discovered, and
    [main] leaves the file at such a path as it was, whatever it holds. *)
Theorem node_modules_untouched (tree : list path) (w : world) (q : path)
    (Hnm : In (cps "node_modules") q) :
  ~ In q (discover tree) /\ disk (main tree w) q = disk w q.
Proof.
  assert (N : ~ In q (discover tree)).
  { intros H. apply discover_In in H as [_ H].
    rewrite (node_modules_not_selected q Hnm) in H. discriminate. }
  split; [exact N|]. rewrite main_disk. apply main_loop_frame. exact N.
Qed.

Lemma ts_tsx_exclusive (name : text) :
  ends_with (cps ".ts") name = true -> ends_with (cps ".tsx") name = false.
Proof.
  unfold ends_with, starts_with.
  destruct (strip_prefix (rev (cps ".ts")) (rev name)) as [r|] eqn:E1;
    [|discriminate].
  intros _.
  destruct (strip_prefix (rev (cps ".tsx")) (rev name)) as [r'|] eqn:E2;
    [|reflexivity].
  apply strip_prefix_spec in E1. apply strip_prefix_spec in E2.
  rewrite E1 in E2. discriminate E2.
Qed.

(** X13: no file is processed twice: when the directory walk lists every
    entry once, so does the list of files [main] goes through, a name
    ending in [.ts] never ending in [.tsx] as well. *)
Theorem discover_no_duplicates (tree : list path)
    (Htree : NoDup tree) :
  NoDup (discover tree).
Proof.
  unfold discover, rglob. apply NoDup_filter. apply NoDup_app.
  - apply NoDup_filter. exact Htree.
  - apply NoDup_filter. exact Htree.
  - intros p H1 H2. apply filter_In in H1 as [_ H1].
    apply filter_In in H2 as [_ H2].
    rewrite (ts_tsx_exclusive _ H1) in H2. discriminate.
Qed.



(** ** [fix_firestore_references]: lines *)

Lemma split_on_nonempty (sep : char) (s : text) : split_on sep s <> [].
Proof.
  induction s as [|c s IH]; simpl; [discriminate|].
  destruct (N.eqb c sep); [discriminate|].
  destruct (split_on sep s); [contradiction | discriminate].
Qed.

(** ['\n'.join(s.split('\n')) == s] *)
Lemma join_split_on (sep : char) (s : text) :
  join [sep] (split_on sep s) = s.
Proof.
  induction s as [|c s IH]; [reflexivity|]. simpl split_on.
  pose proof (split_on_nonempty sep s) as Hne.
  destruct (N.eqb_spec c sep) as [->|Hc].
  - destruct (split_on sep s) as [|l ls]; [contradiction|].
    change (join [sep] ([] :: l :: ls)) with ([] ++ [sep] ++ join [sep] (l :: ls)).
    rewrite IH. reflexivity.
  - destruct (split_on sep s) as [|l ls]; [contradiction|].
    destruct ls as [|l' ls].
    + simpl in *. rewrite IH. reflexivity.
    + change (join [sep] ((c :: l) :: l' :: ls))
        with (c :: (l ++ [sep] ++ join [sep] (l' :: ls))).
      change (join [sep] (l :: l' :: ls))
        with (l ++ [sep] ++ join [sep] (l' :: ls)) in IH.
      rewrite IH. reflexivity.
Qed.

Lemma split_on_head (sep : char) (s l0 : text) (ls : list text) :
  split_on sep s = l0 :: ls -> exists b, s = l0 ++ b.
Proof.
  revert l0 ls. induction s as [|c s IH]; intros l0 ls H; simpl in H.
  - injection H as <- _. exists []. reflexivity.
  - destruct (N.eqb c sep).
    + injection H as <- _. exists (c :: s). reflexivity.
    + destruct (split_on sep s) as [|l1 ls1].
      * injection H as <- _. exists s. reflexivity.
      * injection H as <- _. destruct (IH l1 ls1 eq_refl) as (b & ->).
        exists b. reflexivity.
Qed.

Lemma split_on_infix (sep : char) (s l : text) :
  In l (split_on sep s) -> exists a b, s = a ++ l ++ b.
Proof.
  revert l. induction s as [|c s IH]; intros l H; simpl in H.
  - destruct H as [<-|[]]. exists [], []. reflexivity.
  - destruct (N.eqb c sep).
    + destruct H as [<-|H].
      * exists [], (c :: s). reflexivity.
      * destruct (IH l H) as (a & b & ->). exists (c :: a), b. reflexivity.
    + destruct (split_on sep s) as [|l0 ls] eqn:E.
      * destruct H as [<-|[]]. exists [], s. reflexivity.
      * destruct H as [<-|H].
        -- destruct (split_on_head _ _ _ _ E) as (b & ->).
           exists [], b. reflexivity.
        -- destruct (IH l (or_intror H)) as (a & b & ->).
           exists (c :: a), b. reflexivity.
Qed.

Lemma is_infix_mono (p l a b : text) :
  is_infix p (a ++ l ++ b) = false -> is_infix p l = false.
Proof.
  intros H. destruct (is_infix p l) eqn:E; auto.
  apply is_infix_spec in E as (x & y & ->).
  assert (X : is_infix p (a ++ (x ++ p ++ y) ++ b) = true).
  { apply is_infix_spec. exists (a ++ x), (y ++ b).
    repeat rewrite <- app_assoc. reflexivity. }
  congruence.
Qed.

Lemma is_infix_longer (p e l : text) :
  is_infix p l = false -> is_infix (p ++ e) l = false.
Proof.
  intros H. destruct (is_infix (p ++ e) l) eqn:E; auto.
  apply is_infix_spec in E as (x & y & ->).
  assert (X : is_infix p (x ++ (p ++ e) ++ y) = true).
  { apply is_infix_spec. exists x, (e ++ y).
    repeat rewrite <- app_assoc. reflexivity. }
  congruence.
Qed.

(** A line that triggers nothing is copied. *)
Lemma firestore_loop_quiet (lines rest : list text) (i : nat) :
  (forall l, In l lines -> is_infix (cps "collection(firestore") l = false) ->
  (forall l, In l rest -> is_infix (cps "collection(firestore") l = false
                          /\ is_infix doc_call l = false) ->
  firestore_loop lines rest i = rest.
Proof.
  intros Hl. revert i. induction rest as [|line rest IH]; intros i Hr;
    [reflexivity|].
  cbn [firestore_loop].
  destruct (Hr line (or_introl eq_refl)) as [H1 H2].
  assert (C : is_infix (cps "collection(firestore,") line = false)
    by (apply (is_infix_longer (cps "collection(firestore") (cps ",")); exact H1).
  assert (N : is_infix (cps "collection(firestore") (nth (i + 1) lines [])
              = false).
  { destruct (nth_in_or_default (i + 1) lines []) as [H | ->].
    - apply Hl. exact H.
    - reflexivity. }
  rewrite C. unfold doc_call in H2. rewrite H2, N. rewrite !andb_false_r.
  cbn [orb]. f_equal. apply IH. intros l H. apply Hr. right. exact H.
Qed.

(** X15: a text that holds neither [collection(firestore] nor
    [doc(firestore,] comes out of [fix_firestore_references] as it went
    in, line breaks included. *)
Theorem firestore_references_quiet (content : text)
    (Hcoll : is_infix (cps "collection(firestore") content = false)
    (Hdoc : is_infix doc_call content = false) :
  fix_firestore_references content = content.
Proof.
  unfold fix_firestore_references. cbv zeta.
  rewrite firestore_loop_quiet.
  - apply join_split_on.
  - intros l H. apply split_on_infix in H as (a & b & E).
    rewrite E in Hcoll. apply is_infix_mono in Hcoll. exact Hcoll.
  - intros l H. apply split_on_infix in H as (a & b & E).
    rewrite E in Hcoll, Hdoc.
    apply is_infix_mono in Hcoll. apply is_infix_mono in Hdoc. auto.
Qed.

(** ** [str.replace] and the occurrences of a text *)







Section Replace.

(** [p] is the text looked for in the output of replacing [old] by [new].
    No occurrence of [new] begins inside [p] after its first character,
    and no occurrence of [p] begins inside [new]. *)
Variable c0 : char.
Variable p' : text.
Variables old new : text.
Let p := c0 :: p'.

Hypothesis old_nonempty : old <> [].
Hypothesis tail_vs_new : forall x2 r r',
  In x2 (tails p') -> x2 <> [] -> x2 ++ r <> new ++ r'.
Hypothesis new_vs_p : forall x2 r r',
  In x2 (tails new) -> x2 <> [] -> x2 ++ r <> p ++ r'.




End Replace.

(** ** [fix_firestore_references] removes the direct calls *)











End Properties.

(** * Instances on concrete inputs *)

(** C1: a read-only file whose text the pipeline changes is neither
    overwritten nor reported as modified: opening it for writing raises,
    the error is printed and [process_file] returns [False]. *)
Lemma process_file_read_only_counterexample :
  read_text (K := ascii_codec) (disk read_only_world) list_ts = inr callback_ts /\
  pipeline (U := ascii_only) callback_ts <> callback_ts /\
  process_file (U := ascii_only) (K := ascii_codec) list_ts read_only_world
  = (print (ErrorProcessing list_ts OpenForWriteError) read_only_world, false).
Proof.
  split; [reflexivity|]. split; [|reflexivity].
  vm_compute. discriminate.
Qed.

(** A writable [list.ts] with a callback is overwritten with the annotated
    text and reported as modified. *)
Lemma process_file_writes_iff_changed_witness :
  process_file (U := ascii_only) (K := ascii_codec) list_ts writable_world
  = (mk_world (store list_ts (mk_file annotated_ts true true)
                     (disk writable_world)) [], true).
Proof.
  refine (proj2 (process_file_writes_iff_changed
                   (U := ascii_only) (K := ascii_codec)
                   list_ts writable_world callback_ts
                   (mk_file callback_ts true true) eq_refl eq_refl)
                _ annotated_ts eq_refl eq_refl).
  vm_compute. discriminate.
Defined.

(** The undecodable file keeps its bytes. *)
Lemma read_failure_leaves_disk_witness :
  disk (fst (process_file (U := ascii_only) (K := ascii_codec)
                          list_ts undecodable_world))
  = disk undecodable_world /\
  snd (process_file (U := ascii_only) (K := ascii_codec)
                    list_ts undecodable_world) = false.
Proof.
  apply (read_failure_leaves_disk (U := ascii_only) (K := ascii_codec)
           list_ts undecodable_world UnicodeDecodeError).
  reflexivity.
Defined.

(** A line without access check and without callback is returned as it
    is. *)
Lemma pipeline_no_match_identity_witness :
  pipeline (U := ascii_only) (cps "const total = items.length;")
  = cps "const total = items.length;".
Proof.
  apply (pipeline_no_match_identity (U := ascii_only)).
  - vm_compute. reflexivity.
  - repeat constructor.
Defined.

(** The example callback and [.map((row) =>] between [rows] and
    [ done();]. *)
Lemma callbacks_annotated_witness :
  (exists a1 b1,
     fix_check_admin_access (U := ascii_only)
       (cps "rows" ++ callback_ts ++ cps " done();")
     = a1 ++ callback_ts ++ b1 /\
     pipeline (U := ascii_only) (cps "rows" ++ callback_ts ++ cps " done();")
     = fix_implicit_any_params (U := ascii_only) a1 ++ annotated_ts
       ++ fix_implicit_any_params (U := ascii_only) b1) /\
  (exists a1 b1,
     fix_check_admin_access (U := ascii_only)
       (cps "rows" ++ callback_text (cps "map") (cps "row") ++ cps " done();")
     = a1 ++ callback_text (cps "map") (cps "row") ++ b1 /\
     pipeline (U := ascii_only)
       (cps "rows" ++ callback_text (cps "map") (cps "row") ++ cps " done();")
     = fix_implicit_any_params (U := ascii_only) a1
       ++ annotated_text (cps "map") (cps "row")
       ++ fix_implicit_any_params (U := ascii_only) b1).
Proof.
  apply (callbacks_annotated (U := ascii_only)).
  - simpl. auto.
  - discriminate.
  - repeat constructor.
Defined.

(** C2: the name of [odd_ts] cannot be printed on a UTF-8 standard output
    and its content cannot be decoded.  The [print] of the handler raises,
    and [main] stops: [next.ts], which holds a callback to annotate, is not
    processed, and no line is printed. *)
Lemma main_aborts_counterexample :
  discover [odd_ts; next_ts] = [odd_ts; next_ts] /\
  read_text (K := ascii_codec) (disk odd_world) odd_ts
  = inl UnicodeDecodeError /\
  main_on (U := ascii_only) (K := ascii_codec) utf8_stdout
          [odd_ts; next_ts] odd_world
  = raises odd_world (ErrorProcessing odd_ts UnicodeDecodeError).
Proof. repeat split; vm_compute; reflexivity. Qed.

(** An undecodable [list.ts] is reported and skipped, and the loop goes on
    with [next.ts], which is rewritten and reported as fixed. *)
Lemma process_file_catches_witness :
  main_loop_on (U := ascii_only) (K := ascii_codec) utf8_stdout
               [list_ts; next_ts] two_files_world 0
  = returns (mk_world (store next_ts (mk_file annotated_ts true true)
                             (disk two_files_world))
                      [ErrorProcessing list_ts UnicodeDecodeError;
                       Fixed next_ts], 1).
Proof.
  refine (eq_trans
            (proj1 (proj2
               (process_file_catches (U := ascii_only) (K := ascii_codec)
                  utf8_stdout list_ts two_files_world UnicodeDecodeError
                  [next_ts] 0 (or_introl eq_refl)))) _).
  vm_compute. reflexivity.
Defined.

(** C5: a callback parameter written without parentheses, or whose name
    holds a [$], is a single identifier and is not annotated. *)
Lemma callback_not_annotated_counterexample :
  pipeline (U := ascii_only) (cps "items.map(x => x.id);")
  = cps "items.map(x => x.id);" /\
  pipeline (U := ascii_only) (cps "items.map(($el) => $el.id);")
  = cps "items.map(($el) => $el.id);".
Proof. split; vm_compute; reflexivity. Qed.

(** C6: on [nested_response_ts] a second pass of the pipeline rewrites a
    response statement that the first pass has put together. *)
Lemma pipeline_not_idempotent_counterexample :
  pipeline (U := ascii_only) (pipeline (U := ascii_only) nested_response_ts)
  <> pipeline (U := ascii_only) nested_response_ts.
Proof. vm_compute. discriminate. Qed.

(** The annotation stage is idempotent on [nested_response_ts], where
    the pipeline is not; on the example block followed by the example
    callback the first pass leaves no access-check match, and the pipeline
    is idempotent. *)
Lemma pipeline_idempotent_when_normalized_witness :
  fix_implicit_any_params (U := ascii_only)
    (fix_implicit_any_params (U := ascii_only) nested_response_ts)
  = fix_implicit_any_params (U := ascii_only) nested_response_ts /\
  pipeline (U := ascii_only)
    (pipeline (U := ascii_only) (example_block ++ callback_ts))
  = pipeline (U := ascii_only) (example_block ++ callback_ts).
Proof.
  split.
  - exact (proj1 (pipeline_idempotent_when_normalized (U := ascii_only)
                    nested_response_ts)).
  - apply (proj2 (pipeline_idempotent_when_normalized (U := ascii_only)
                    (example_block ++ callback_ts))).
    vm_compute. reflexivity.
Defined.

(** C4: with a callback after the block, the pipeline changes characters
    outside the forbidden-response statement; and so it does in a block
    whose parameter list holds a response statement of its own. *)
Lemma access_block_counterexample :
  pipeline (U := ascii_only) (example_block ++ newline :: callback_ts)
  = example_fixed ++ newline :: annotated_ts /\
  example_fixed ++ newline :: annotated_ts
  <> example_fixed ++ newline :: callback_ts /\
  pipeline (U := ascii_only) response_params_block
  = cps "async function checkAdminAccess(deny = throw new Error('no'): Promise<boolean> { const firestore = getFirebaseFirestore(); if (!firestore) { throw new Error('Forbidden'); }" /\
  pipeline (U := ascii_only) response_params_block <> response_params_fixed.
Proof.
  split; [vm_compute; reflexivity|].
  split; [vm_compute; discriminate|].
  split; [vm_compute; reflexivity|].
  vm_compute. discriminate.
Qed.

(** A block with quoted strings in its parameter list and in its body,
    between a comment line and the rest of the function. *)
Lemma access_block_rewritten_witness :
  fix_check_admin_access (U := ascii_only)
    (example_pre ++ logging_block ++ example_post)
  = example_pre ++ logging_fixed ++ example_post /\
  pipeline (U := ascii_only) (example_pre ++ logging_block ++ example_post)
  = example_pre ++ logging_fixed ++ example_post.
Proof.
  apply (access_block_rewritten (U := ascii_only)).
  - constructor; try discriminate; try (right; reflexivity);
      try (left; reflexivity); repeat constructor.
  - vm_compute. reflexivity.
  - intros p2 Hp Hne. simpl in Hp.
    repeat (destruct Hp as [<-|Hp]); try contradiction;
      try (exfalso; apply Hne; reflexivity); vm_compute; reflexivity.
  - vm_compute. reflexivity.
  - repeat constructor.
Defined.

(** C9: a block that the access-check pattern matches, but whose message
    holds a quote character or is empty, is left as it is: no throw
    statement is written for it. *)
Lemma matched_block_not_rewritten_counterexample :
  (exists g, re_match (admin_pattern (U := ascii_only)) dont_block
             = Some (length dont_block, g)) /\
  fix_check_admin_access (U := ascii_only) dont_block = dont_block /\
  (exists g, re_match (admin_pattern (U := ascii_only)) empty_message_block
             = Some (length empty_message_block, g)) /\
  fix_check_admin_access (U := ascii_only) empty_message_block
  = empty_message_block.
Proof.
  split; [eexists; vm_compute; reflexivity|].
  split; [vm_compute; reflexivity|].
  split; [eexists; vm_compute; reflexivity|].
  vm_compute; reflexivity.
Qed.

(** A block with a double-quoted message, status 401 and no semicolon,
    between a comment line and the rest of the function. *)
Lemma check_admin_access_keeps_message_witness :
  rewrites (U := ascii_only) nested_response_ts
           (fix_check_admin_access (U := ascii_only) nested_response_ts) /\
  exists u,
    rewrites (U := ascii_only) (block_prefix logging_params logging_body
                (cps "firestoreDb") (newline :: cps "  ") (cps "firestoreDb")
                (newline :: cps "    ")) u /\
    fix_check_admin_access (U := ascii_only)
      (example_pre ++ denied_block ++ example_post)
    = example_pre
      ++ (u ++ throw_stmt 34%N (cps "Admin access required") ++ []
            ++ (newline :: cps "  ") ++ cps "}")
      ++ fix_check_admin_access (U := ascii_only) example_post.
Proof.
  split.
  - exact (proj1 (check_admin_access_keeps_message (U := ascii_only))
                 nested_response_ts).
  - apply (proj2 (check_admin_access_keeps_message (U := ascii_only))).
    + constructor; try discriminate; try (left; reflexivity);
        try (right; left; reflexivity); repeat constructor.
    + right. left. reflexivity.
    + discriminate.
    + repeat constructor.
    + intros p2 Hp Hne. simpl in Hp.
      repeat (destruct Hp as [<-|Hp]); try contradiction;
        try (exfalso; apply Hne; reflexivity); vm_compute; reflexivity.
Defined.

(** * Instances of the further properties *)

(** A text with a response statement but no [checkAdminAccess] header. *)
Lemma check_admin_access_needs_both_witness :
  fix_check_admin_access (U := ascii_only)
    (cps "return NextResponse.json({ error: 'Forbidden' }, { status: 403 });")
  = cps "return NextResponse.json({ error: 'Forbidden' }, { status: 403 });".
Proof.
  apply (check_admin_access_needs_both (U := ascii_only)).
  left. vm_compute. reflexivity.
Defined.

(** A callback without parentheses around its parameter. *)
Lemma implicit_any_needs_arrow_witness :
  fix_implicit_any_params (U := ascii_only) (cps "items.map(x => x.id);")
  = cps "items.map(x => x.id);".
Proof.
  apply (implicit_any_needs_arrow (U := ascii_only)).
  left. vm_compute. reflexivity.
Defined.

(** An annotated [.filter((row: any) =>] between two texts. *)
Lemma annotated_callback_left_alone_witness :
  fix_implicit_any_params (U := ascii_only)
    (cps "rows" ++ annotated_text (cps "filter") (cps "row") ++ cps " row.ok);")
  = fix_implicit_any_params (U := ascii_only) (cps "rows")
    ++ annotated_text (cps "filter") (cps "row")
    ++ fix_implicit_any_params (U := ascii_only) (cps " row.ok);").
Proof.
  apply (annotated_callback_left_alone (U := ascii_only)).
  - simpl. auto.
  - repeat constructor.
Defined.

(** The six rules in reverse order. *)
Lemma implicit_any_order_irrelevant_witness :
  fold_left (fun c m => annotate (U := ascii_only) m c)
            (rev callback_methods) callback_ts
  = fix_implicit_any_params (U := ascii_only) callback_ts.
Proof.
  apply (implicit_any_order_irrelevant (U := ascii_only)).
  apply Permutation_rev.
Defined.

(** A block with a double-quoted message, status 401 and no semicolon. *)
Lemma response_block_rewritten_witness :
  fix_check_admin_access (U := ascii_only)
    (response_block (cps "uid: string") [space] (cps "firestoreDb") [space]
                    (cps "firestoreDb") [space] 34%N (cps "Admin only")
                    (cps "401") [] [space] ++ cps " // end")
  = thrown_block (cps "uid: string") [space] (cps "firestoreDb") [space]
                 (cps "firestoreDb") [space] 34%N (cps "Admin only")
                 [] [space]
    ++ fix_check_admin_access (U := ascii_only) (cps " // end").
Proof.
  apply (response_block_rewritten (U := ascii_only)).
  - constructor; try discriminate; try (left; reflexivity);
      try (right; left; reflexivity); repeat constructor.
  - right. left. reflexivity.
  - discriminate.
  - repeat constructor.
  - repeat constructor.
Defined.

(** [list.ts] of [writable_world] is rewritten. *)
Lemma process_file_true_inv_witness :
  exists t b f,
    read_text (K := ascii_codec) (disk writable_world) list_ts = inr t /\
    pipeline (U := ascii_only) t <> t /\
    disk writable_world list_ts = Some f /\
    encode (Codec := ascii_codec) (pipeline (U := ascii_only) t) = Some b /\
    rewritten_world
    = mk_world (store list_ts (mk_file b (readable f) true)
                      (disk writable_world)) (stdout writable_world).
Proof.
  apply (process_file_true_inv (U := ascii_only) (K := ascii_codec)
           list_ts writable_world rewritten_world).
  reflexivity.
Defined.

(** Processing [list.ts] leaves [next.ts] alone. *)
Lemma process_file_other_files_witness :
  disk (fst (process_file (U := ascii_only) (K := ascii_codec)
                          list_ts writable_world)) next_ts
  = disk writable_world next_ts.
Proof.
  apply (process_file_other_files (U := ascii_only) (K := ascii_codec)).
  discriminate.
Defined.

(** A second call on the rewritten [list.ts]. *)
Lemma process_file_second_run_witness :
  process_file (U := ascii_only) (K := ascii_codec) list_ts rewritten_world
  = (rewritten_world, false).
Proof.
  apply (process_file_second_run (U := ascii_only) (K := ascii_codec)
           list_ts writable_world rewritten_world callback_ts).
  - reflexivity.
  - reflexivity.
  - intros b H. vm_compute in H. injection H as <-. reflexivity.
  - vm_compute. reflexivity.
Defined.

(** [srcmap.ts] is not in the tree [main] walks. *)
Lemma main_changes_discovered_only_witness :
  disk (main (U := ascii_only) (K := ascii_codec) example_tree writable_world)
       srcmap_ts
  = disk writable_world srcmap_ts.
Proof.
  apply (main_changes_discovered_only (U := ascii_only) (K := ascii_codec)).
  vm_compute. intuition discriminate.
Defined.

(** The vendored file is in the tree and is passed over. *)
Lemma node_modules_untouched_witness :
  ~ In vendored_ts (discover example_tree) /\
  disk (main (U := ascii_only) (K := ascii_codec) example_tree writable_world)
       vendored_ts
  = disk writable_world vendored_ts.
Proof.
  apply (node_modules_untouched (U := ascii_only) (K := ascii_codec)).
  simpl. auto.
Defined.

Lemma discover_no_duplicates_witness : NoDup (discover example_tree).
Proof.
  apply discover_no_duplicates.
  repeat constructor; simpl; intuition discriminate.
Defined.


(** A text without any database call. *)
Lemma firestore_references_quiet_witness :
  fix_firestore_references (U := ascii_only)
    (cps "const a = 1;" ++ newline :: cps "export default a;")
  = cps "const a = 1;" ++ newline :: cps "export default a;".
Proof.
  apply (firestore_references_quiet (U := ascii_only)); vm_compute; reflexivity.
Defined.

(** The example tree on a standard output that accepts every line. *)
Lemma main_on_accepting_witness :
  main_on (U := ascii_only) (K := ascii_codec) (fun _ => true)
          example_tree writable_world
  = returns (main (U := ascii_only) (K := ascii_codec)
                  example_tree writable_world).
Proof.
  apply (main_on_accepting (U := ascii_only) (K := ascii_codec)).
  intros l. reflexivity.
Defined.
